(** * Translate-SRT: a shallow embedding of [index.js] and its properties

    The Cloud Function [translateSRTFiles] downloads a SubRip file, splits it
    into lines, sends the text lines to a translation backend in batches,
    puts the translations back at their positions and writes, uploads and
    deletes a temporary file.

    JavaScript strings are modelled as [string] (the regular expressions and
    the line splitting of the source only look at the decimal digits, a few
    punctuation characters and the line feed, all of them single code
    units); arrays as lists; the promise chain as a state, trace and outcome
    monad over the answers of the external collaborators. *)

From Stdlib Require Import ZArith Lia Ascii String DecimalString Bool Sorted.
From stdpp Require Import base list strings.

Local Open Scope Z_scope.
Local Open Scope nat_scope.

(** ** JavaScript values and strings *)

(** The values stored in [content.output] and returned by the translation
    backend: strings, or [undefined] (an index read past the end of an
    array). *)
Inductive jsval : Type :=
| JStr (s : string)
| JUndefined.

(** The line feed, the separator of [split(/\n/)] and [join('\n')]. *)
Definition LF : ascii := "010"%char.
Definition NL : string := String LF EmptyString.

(** [\d] of a JavaScript regular expression without the unicode flag: the
    ten ASCII digits. *)
Definition is_digit (c : ascii) : bool :=
  (48 <=? nat_of_ascii c) && (nat_of_ascii c <=? 57).

(** ** The two regular expressions

    Both expressions of the source are anchored sequences of single
    characters, digits and one [\d+]; this fragment is all the matcher needs.
    A [regex] stands for [^ items $]. *)
Inductive atom : Type :=
| Digit
| Lit (c : ascii).

Inductive item : Type :=
| Once (a : atom)
| Plus (a : atom).

Definition regex : Type := list item.

Definition atom_matches (a : atom) (c : ascii) : bool :=
  match a with
  | Digit => is_digit c
  | Lit c' => bool_decide (c = c')
  end.

(** Greedy [a+] followed by the continuation [k]: take one more character
    when the rest still matches, otherwise stop here. *)
Fixpoint plus_exec (a : atom) (k : string -> option string) (s : string)
  : option string :=
  match s with
  | EmptyString => None
  | String c s' =>
      if atom_matches a c then
        match plus_exec a k s' with
        | Some m => Some (String c m)
        | None => option_map (String c) (k s')
        end
      else None
  end.

(** [regex_exec r s] is [m[0]] of [s.match(r)], the matched text, or [None]
    for [null]. The empty list of items is the closing [$]. *)
Fixpoint regex_exec (r : regex) (s : string) : option string :=
  match r with
  | [] => match s with EmptyString => Some EmptyString | String _ _ => None end
  | Once a :: r' =>
      match s with
      | EmptyString => None
      | String c s' =>
          if atom_matches a c then option_map (String c) (regex_exec r' s')
          else None
      end
  | Plus a :: r' => plus_exec a (regex_exec r') s
  end.

Definition js_match (s : string) (r : regex) : option string := regex_exec r s.

Definition lits (s : string) : regex :=
  map (fun c => Once (Lit c)) (list_ascii_of_string s).

Definition digits (n : nat) : regex := repeat (Once Digit) n.

(** [/^\d+$/] *)
Definition REGEX_INDEX_LINE : regex := [Plus Digit].

(** [/^\d{2}:\d{2}:\d{2},\d{3} --> \d{2}:\d{2}:\d{2},\d{3}$/] *)
Definition timestamp_items : regex :=
  digits 2 ++ lits ":" ++ digits 2 ++ lits ":" ++ digits 2 ++ lits ","
    ++ digits 3.

Definition REGEX_TIMESTAMP_LINE : regex :=
  timestamp_items ++ lits " --> " ++ timestamp_items.

(** ** Arrays *)

(** [arr.push(x)] *)
Definition push {A} (arr : list A) (x : A) : list A := arr ++ [x].

(** [arr.forEach((element, index) => ...)], the callback acting on a state. *)
Fixpoint forEach_from {A St} (f : St -> A -> nat -> St) (arr : list A)
    (index : nat) (st : St) : St :=
  match arr with
  | [] => st
  | element :: rest => forEach_from f rest (S index) (f st element index)
  end.

Definition forEach {A St} (f : St -> A -> nat -> St) (arr : list A) (st : St)
  : St := forEach_from f arr 0 st.

(** [arr[i]] for reading: [undefined] out of range. *)
Definition js_get (arr : list jsval) (i : nat) : jsval :=
  default JUndefined (arr !! i).

(** [arr[i] = v]: in range the element is replaced; past the end JavaScript
    extends the array, the new slots in between being holes, which read as
    [undefined]. *)
Definition js_set (arr : list jsval) (i : nat) (v : jsval) : list jsval :=
  if decide (i < length arr) then <[i:=v]> arr
  else arr ++ repeat JUndefined (i - length arr) ++ [v].

(** [s.split(sep)] for a separator of one character: every separator ends a
    segment; the empty string gives one empty segment. *)
Fixpoint split_on (sep : ascii) (s : string) : list string :=
  match s with
  | EmptyString => [EmptyString]
  | String c rest =>
      if bool_decide (c = sep) then EmptyString :: split_on sep rest
      else match split_on sep rest with
           | seg :: segs => String c seg :: segs
           | [] => [String c EmptyString]
           end
  end.

(** [data.split(/\n/)] *)
Definition split_lines (data : string) : list string := split_on LF data.

(** What [join] prints for an element: [undefined] and holes give the empty
    string. *)
Definition render (v : jsval) : string :=
  match v with
  | JStr s => s
  | JUndefined => EmptyString
  end.

(** [arr.join(sep)] *)
Definition js_join (sep : string) (arr : list jsval) : string :=
  String.concat sep (map render arr).

(** ** processData *)

Record Content : Type := mkContent {
  sentences : list string;
  requestLines : list nat;
  output : list jsval
}.

(** The callback of [arrData.forEach] in [processData]. *)
Definition processLine (resultData : Content) (element : string) (index : nat)
  : Content :=
  match js_match element REGEX_INDEX_LINE with
  | Some m0 =>
      mkContent (push (sentences resultData) m0)
                (requestLines resultData)
                (push (output resultData) (JStr m0))
  | None =>
      match js_match element REGEX_TIMESTAMP_LINE with
      | Some m0 =>
          mkContent (push (sentences resultData) m0)
                    (requestLines resultData)
                    (push (output resultData) (JStr m0))
      | None =>
          if bool_decide (element = EmptyString) then
            mkContent (push (sentences resultData) EmptyString)
                      (requestLines resultData)
                      (push (output resultData) (JStr EmptyString))
          else
            mkContent (push (sentences resultData) element)
                      (push (requestLines resultData) index)
                      (push (output resultData) (JStr element))
      end
  end.

Definition processData (data : string) : Content :=
  let arrData := split_lines data in
  forEach processLine arrData (mkContent [] [] []).

(** The predicate of [content.sentences.filter(...)] in [translateSRTFiles]:
    [!(m || n || element === '')]. *)
Definition needs_translation (element : string) : bool :=
  negb (bool_decide (is_Some (js_match element REGEX_INDEX_LINE))
        || bool_decide (is_Some (js_match element REGEX_TIMESTAMP_LINE))
        || bool_decide (element = EmptyString)).

Definition filter_sentences (content : Content) : list string :=
  List.filter needs_translation (sentences content).

(** ** Batches

    [arr.slice(start, end)], with JavaScript's treatment of negative and
    too large indices. *)
Definition js_slice {A} (arr : list A) (start end_ : Z) : list A :=
  let len := Z.of_nat (length arr) in
  let k := if (start <? 0)%Z then Z.max (len + start) 0 else Z.min start len in
  let final := if (end_ <? 0)%Z then Z.max (len + end_) 0 else Z.min end_ len in
  take (Z.to_nat (final - k)) (drop (Z.to_nat k) arr).

Definition MAX_SEGMENT_SIZE : Z := 128.

(** The [while (i < filtered.length)] loop of [translateSRTFiles]. The list
    [promises] collects, in order, the slices the translation calls are
    issued with. The loop does not end for a batch size below one: [None]
    when the fuel runs out. *)
Fixpoint batch_loop {A} (fuel : nat) (maxSize : Z) (filtered : list A) (i : Z)
    (promises : list (list A)) : option (list (list A)) :=
  if (i <? Z.of_nat (length filtered))%Z then
    match fuel with
    | O => None
    | S fuel' =>
        let from := i in
        let to := Z.min (Z.of_nat (length filtered) - 1) (i + maxSize - 1) in
        batch_loop fuel' maxSize filtered (i + maxSize)
                   (push promises (js_slice filtered from (to + 1)))
    end
  else Some promises.

(** The loop from [i = 0] and no promises, with one unit of fuel per line: a
    batch size of at least one never needs more. *)
Definition planBatches {A} (maxSize : Z) (filtered : list A)
  : option (list (list A)) :=
  batch_loop (length filtered) maxSize filtered 0 [].

(** ** Merging the translations

    [results.forEach(segment => { translations = translations.concat(segment[0]); })] *)
Definition concat_segments (results : list (list jsval)) : list jsval :=
  forEach (fun translations segment0 (_ : nat) => translations ++ segment0)
          results [].

(** [content.requestLines.forEach((position, i) => {
       content.output[position] = translations[i]; })] *)
Definition merge_step (translations : list jsval) (out : list jsval)
    (position i : nat) : list jsval :=
  js_set out position (js_get translations i).

Definition merge_translations (content : Content) (translations : list jsval)
  : Content :=
  mkContent (sentences content) (requestLines content)
            (forEach (merge_step translations) (requestLines content)
                     (output content)).

(** [content.output.join('\n')] *)
Definition output_text (content : Content) : string :=
  js_join NL (output content).

(** ** The output filename *)

Definition SOURCE_LANGUAGE : string := "en".
Definition TARGET_LANGUAGE : string := "nl".
Definition TARGET_BUCKET : string := "cclabs-translate-target".

Fixpoint string_drop (n : nat) (s : string) : string :=
  match n, s with
  | S n', String _ s' => string_drop n' s'
  | _, _ => s
  end.

(** [s.replace(pattern, replacement)] with a string pattern: only the
    leftmost occurrence is replaced. (The replacement of the source, [-nl],
    has no [$] sequence.) *)
Fixpoint js_replace (s pattern replacement : string) : string :=
  if String.prefix pattern s then
    replacement +:+ string_drop (String.length pattern) s
  else
    match s with
    | EmptyString => EmptyString
    | String c s' => String c (js_replace s' pattern replacement)
    end.

(** [path.parse(p).base] of Node's POSIX [path]: the last segment between
    slashes that is not empty. *)
Definition path_base (p : string) : string :=
  List.last (List.filter (fun seg => negb (bool_decide (seg = EmptyString)))
                         (split_on "/"%char p))
            EmptyString.

(** [path.parse(file.name).base.replace(`-${SOURCE_LANGUAGE}`, `-${TARGET_LANGUAGE}`)] *)
Definition translatedFilename (file_name : string) : string :=
  js_replace (path_base file_name) ("-" +:+ SOURCE_LANGUAGE)
             ("-" +:+ TARGET_LANGUAGE).

(** ** Promises

    What the function does to the outside world, in the order it does it. *)
Inductive Action : Type :=
| ConsoleLog (msg : string)
| ConsoleError (msg : string)
| Download (bucket_name file_name : string)
| Translate (input : list string) (target : string)
| WriteFile (path data : string)
| Upload (bucket_name path destination : string)
| Unlink (path : string).

(** The state of a promise once nothing more happens to it. Error values
    are modelled by their text. *)
Inductive outcome (A : Type) : Type :=
| Fulfilled (a : A)
| Rejected (err : string)
| Pending.

Arguments Fulfilled {A} a.
Arguments Rejected {A} err.
Arguments Pending {A}.

(** The variable [let content;] of [translateSRTFiles], [None] while it is
    [undefined]. *)
Definition Vars : Type := option Content.

(** A step of the chain: from the variables, an outcome, the variables
    after it and the actions performed. *)
Definition Promise (A : Type) : Type := Vars -> outcome A * Vars * list Action.

Definition resolve {A} (a : A) : Promise A := fun v => (Fulfilled a, v, []).
Definition reject {A} (err : string) : Promise A := fun v => (Rejected err, v, []).
Definition never {A} : Promise A := fun v => (Pending, v, []).
Definition perform (a : Action) : Promise unit := fun v => (Fulfilled tt, v, [a]).
Definition settle {A} (o : outcome A) : Promise A := fun v => (o, v, []).
Definition get_content : Promise Vars := fun v => (Fulfilled v, v, []).
Definition set_content (c : Content) : Promise unit :=
  fun _ => (Fulfilled tt, Some c, []).

(** [p.then(f)]: [f] runs on fulfilment only. *)
Definition then_ {A B} (p : Promise A) (f : A -> Promise B) : Promise B :=
  fun v =>
    match p v with
    | (Fulfilled a, v', t) => let '(o, v'', t') := f a v' in (o, v'', t ++ t')
    | (Rejected err, v', t) => (Rejected err, v', t)
    | (Pending, v', t) => (Pending, v', t)
    end.

(** [p.catch(h)]: [h] runs on rejection only. *)
Definition catch_ {A} (p : Promise A) (h : string -> Promise A) : Promise A :=
  fun v =>
    match p v with
    | (Rejected err, v', t) => let '(o, v'', t') := h err v' in (o, v'', t ++ t')
    | r => r
    end.

Notation "x <- p ;; q" := (then_ p (fun x => q))
  (at level 100, p at next level, right associativity).
Notation "p ;;; q" := (then_ p (fun _ => q))
  (at level 100, right associativity).

(** ** The collaborators

    The answers of the storage service, the translation service and the
    file system. The [k]-th translation call settles at time
    [translate_time k]. *)
Record World : Type := mkWorld {
  storage_download : string -> string -> outcome (option string);
  translate_translate : nat -> list string -> string -> outcome (list jsval);
  translate_time : nat -> nat;
  fs_writeFile : string -> string -> option string;
  storage_upload : string -> string -> string -> outcome unit;
  fs_unlink : string -> option string
}.

(** The earliest rejection among the results of the calls numbered from [k],
    with its time; of two at the same time the earlier call wins. *)
Fixpoint first_rejection {A} (time : nat -> nat) (k : nat)
    (results : list (outcome A)) : option (nat * string) :=
  match results with
  | [] => None
  | r :: rest =>
      let later := first_rejection time (S k) rest in
      match r with
      | Rejected err =>
          match later with
          | Some (t, err') =>
              if t <? time k then Some (t, err') else Some (time k, err)
          | None => Some (time k, err)
          end
      | _ => later
      end
  end.

(** The values when every result is a fulfilment. *)
Fixpoint all_fulfilled {A} (results : list (outcome A)) : option (list A) :=
  match results with
  | [] => Some []
  | Fulfilled a :: rest => option_map (cons a) (all_fulfilled rest)
  | _ :: rest => None
  end.

(** [Promise.all(promises)]: rejected with the first rejection to arrive,
    fulfilled with all values in the order of the promises, pending while
    one of them is and none is rejected. *)
Definition Promise_all {A} (time : nat -> nat) (results : list (outcome A))
  : outcome (list A) :=
  match first_rejection time 0 results with
  | Some (_, err) => Rejected err
  | None =>
      match all_fulfilled results with
      | Some values => Fulfilled values
      | None => Pending
      end
  end.

(** ** translateSRTFiles *)

Record Event : Type := mkEvent {
  bucket : string;
  name : option string;
  resourceState : option string;
  contentType : option string
}.

Definition string_of_nat (n : nat) : string :=
  NilZero.string_of_uint (Nat.to_uint n).

Definition string_of_Z (z : Z) : string :=
  NilZero.string_of_int (Z.to_int z).

(** [`${x}`] for a field that may be absent. *)
Definition template (x : option string) : string :=
  match x with
  | Some s => s
  | None => "undefined"
  end.

(** Truthiness of a string that may be absent: [undefined] and [''] are
    falsy. *)
Definition truthy (x : option string) : bool :=
  match x with
  | Some s => negb (bool_decide (s = EmptyString))
  | None => false
  end.

(** The calls [translate.translate(slice, TARGET_LANGUAGE)] of the loop, in
    order, and their answers. *)
Definition dispatch (w : World) (batches : list (list string))
  : list Action * list (outcome (list jsval)) :=
  (map (fun b => Translate b TARGET_LANGUAGE) batches,
   imap (fun k b => translate_translate w k b TARGET_LANGUAGE) batches).

(** The callback of [Promise.all(promises).then]. *)
Definition merge_results (results : list (list jsval)) : Promise unit :=
  perform (ConsoleLog "Translations done.") ;;;
  perform (ConsoleLog (string_of_nat (length results) +:+ " segments returned")) ;;;
  let translations := concat_segments results in
  c <- get_content ;;
  match c with
  | Some content => set_content (merge_translations content translations)
  | None => reject "TypeError: Cannot read property 'requestLines' of undefined"
  end.

(** The second [.then] of the chain: parse, filter, plan the batches, issue
    the calls and merge, or refuse the missing data. *)
Definition translate_stage (w : World) (data : option string) : Promise unit :=
  if truthy data then
    let content := processData (template data) in
    perform (ConsoleLog ("Lines read: "
                         +:+ string_of_nat (length (sentences content)))) ;;;
    set_content content ;;;
    let filtered := filter_sentences content in
    perform (ConsoleLog (string_of_nat (length filtered)
                         +:+ " lines of text need translation")) ;;;
    perform (ConsoleLog ("Batch size: " +:+ string_of_Z MAX_SEGMENT_SIZE)) ;;;
    match planBatches MAX_SEGMENT_SIZE filtered with
    | None => never
    | Some batches =>
        let '(calls, answers) := dispatch w batches in
        (fun v => (Fulfilled tt, v, calls)) ;;;
        perform (ConsoleLog ("Performing " +:+ string_of_nat (length batches)
                             +:+ " translation requests")) ;;;
        catch_
          (results <- settle (Promise_all (translate_time w) answers) ;;
           merge_results results)
          (fun err =>
             perform (ConsoleError ("Translation failed: " +:+ err)) ;;;
             reject ("One or more translations failed (" +:+ err +:+ ")"))
    end
  else
    perform (ConsoleError "Could not read data") ;;;
    reject "Could not read data".

(** The third [.then]: join the output and write it to the local file. *)
Definition write_stage (w : World) (translated : string) : Promise unit :=
  c <- get_content ;;
  match c with
  | None => reject "TypeError: Cannot read property 'output' of undefined"
  | Some content =>
      let output := output_text content in
      let localFilename := "/tmp/" +:+ translated in
      perform (ConsoleLog ("Writing translated file locally to "
                           +:+ localFilename +:+ ".")) ;;;
      perform (WriteFile localFilename output) ;;;
      match fs_writeFile w localFilename output with
      | Some err => reject err
      | None => resolve tt
      end
  end.

(** The fourth [.then]: upload, with its own [.catch] that only logs. *)
Definition upload_stage (w : World) (translated : string) : Promise unit :=
  let localFilename := "/tmp/" +:+ translated in
  perform (ConsoleLog ("Uploading local file " +:+ translated +:+ " to bucket "
                       +:+ TARGET_BUCKET)) ;;;
  perform (Upload TARGET_BUCKET localFilename translated) ;;;
  catch_
    (settle (storage_upload w TARGET_BUCKET localFilename translated) ;;;
     perform (ConsoleLog (localFilename +:+ " uploaded to " +:+ TARGET_BUCKET)))
    (fun err =>
       perform (ConsoleError ("Error uploading translated file to bucket: "
                              +:+ err))).

(** The fifth [.then]: delete the local file. *)
Definition unlink_stage (w : World) (translated : string) : Promise unit :=
  let localFilename := "/tmp/" +:+ translated in
  perform (ConsoleLog ("Deleting local file " +:+ localFilename)) ;;;
  perform (Unlink localFilename) ;;;
  match fs_unlink w localFilename with
  | Some err => reject err
  | None => resolve tt
  end.

(** The first [.then]: [if (data) return data.toString('utf-8');], the
    downloaded bytes as text, [undefined] when there are none. *)
Definition decode_stage (data : option string) : Promise (option string) :=
  match data with
  | Some bytes => resolve (Some bytes)
  | None => resolve None
  end.

(** The chain returned by [translateSRTFiles], from [file.download()] to the
    last [.catch]. *)
Definition chain (w : World) (bucket_name file_name : string) : Promise unit :=
  let translated := translatedFilename file_name in
  catch_
    (data <- (perform (Download bucket_name file_name) ;;;
              settle (storage_download w bucket_name file_name)) ;;
     data <- decode_stage data ;;
     translate_stage w data ;;;
     write_stage w translated ;;;
     upload_stage w translated ;;;
     unlink_stage w translated ;;;
     perform (ConsoleLog "Finished."))
    (fun err =>
       perform (ConsoleError ("Failed to download, translate or upload file. "
                              +:+ err)) ;;;
       reject err).

(** How a call of the function ends: with an exception, or by returning a
    promise with the given outcome. *)
Inductive completion : Type :=
| Threw (err : string)
| Returned (o : outcome unit).

Record Run : Type := mkRun {
  result : completion;
  final_content : Vars;
  trace : list Action
}.

(** The logging [if ... else if ...] at the top of the function; neither
    branch returns. *)
Definition event_log (object : Event) : list Action :=
  if bool_decide (resourceState object = Some "not_exists") then
    [ConsoleLog "This is a deletion event."]
  else if negb (truthy (name object)) then
    [ConsoleLog "This is a deploy event."]
  else [].

(** [exports.translateSRTFiles]. [storage.bucket(b).file(n)] throws for a
    missing or empty name, before anything is downloaded. *)
Definition translateSRTFiles (w : World) (event : Event) : Run :=
  let object := event in
  if truthy (name object) then
    let file_name := template (name object) in
    let '(o, v, t) := chain w (bucket object) file_name None in
    mkRun (Returned o) v
          (event_log object
           ++ ConsoleLog ("Processing new text file: " +:+ template (name object)
                          +:+ " (" +:+ template (contentType object) +:+ ")")
           :: t)
  else
    mkRun (Threw "Error: A file name must be specified.") None
          (event_log object).

(** ** Specification-side views of the document

    The positions, counted from [k], of the lines that need translation. *)
Fixpoint text_positions (k : nat) (lines : list string) : list nat :=
  match lines with
  | [] => []
  | element :: rest =>
      if needs_translation element then k :: text_positions (S k) rest
      else text_positions (S k) rest
  end.

(** The output line by line: a text line takes the next translation,
    [undefined] when they have run out; every other line stays. *)
Fixpoint reconstitute (lines : list string) (translations : list jsval)
  : list jsval :=
  match lines with
  | [] => []
  | element :: rest =>
      if needs_translation element then
        js_get translations 0 :: reconstitute rest (drop 1 translations)
      else JStr element :: reconstitute rest translations
  end.

(** The number of line feeds of a text, one less than its number of lines. *)
Fixpoint count_LF (s : string) : nat :=
  match s with
  | EmptyString => 0
  | String c rest => (if bool_decide (c = LF) then 1 else 0) + count_LF rest
  end.

(** ** Definitions used in the statements and proofs

    What the batches may look like: each at most [maxSize] lines, and
    exactly [maxSize] when another batch follows. *)
Inductive well_sized {A} (maxSize : Z) : list (list A) -> Prop :=
| well_sized_nil : well_sized maxSize []
| well_sized_last b :
    (Z.of_nat (length b) <= maxSize)%Z -> well_sized maxSize [b]
| well_sized_cons b b' bs :
    Z.of_nat (length b) = maxSize -> well_sized maxSize (b' :: bs) ->
    well_sized maxSize (b :: b' :: bs).

(** A string that is a single line. *)
Definition LF_free (s : string) : Prop := count_LF s = 0.

(** End-to-end scenario A of the specification. *)
Definition scenario_A : string :=
  String.concat NL ["1"; "00:00:01,000 --> 00:00:02,000"; "Hello"; ""; ""].

(** Actions that produce or remove the translated file. *)
Definition touches_output (a : Action) : bool :=
  match a with
  | WriteFile _ _ | Upload _ _ _ | Unlink _ => true
  | _ => false
  end.

(** Calls of the translation backend. *)
Definition is_translate_call (a : Action) : bool :=
  match a with
  | Translate _ _ => true
  | _ => false
  end.

(** The actions of [translate_stage] up to [Promise.all]. *)
Definition request_trace (d : string) (batches : list (list string))
  : list Action :=
  [ConsoleLog ("Lines read: "
               +:+ string_of_nat (length (sentences (processData d))));
   ConsoleLog (string_of_nat (length (filter_sentences (processData d)))
               +:+ " lines of text need translation");
   ConsoleLog ("Batch size: " +:+ string_of_Z MAX_SEGMENT_SIZE)]
  ++ map (fun b => Translate b TARGET_LANGUAGE) batches
  ++ [ConsoleLog ("Performing " +:+ string_of_nat (length batches)
                  +:+ " translation requests")].

(** The actions before the download answers. *)
Definition start_trace (event : Event) : list Action :=
  event_log event
  ++ [ConsoleLog ("Processing new text file: " +:+ template (name event)
                  +:+ " (" +:+ template (contentType event) +:+ ")");
      Download (bucket event) (template (name event))].

(** The answers to the translation calls, in the order of the calls. *)
Definition answers_of (w : World) (batches : list (list string))
  : list (outcome (list jsval)) :=
  imap (fun k b => translate_translate w k b TARGET_LANGUAGE) batches.

(** The actions of the write, upload and delete stages before the
    collaborator answers. *)
Definition write_trace (translated : string) (content : Content) : list Action :=
  [ConsoleLog ("Writing translated file locally to " +:+ "/tmp/" +:+ translated
               +:+ ".");
   WriteFile ("/tmp/" +:+ translated) (output_text content)].

Definition upload_trace (translated : string) : list Action :=
  [ConsoleLog ("Uploading local file " +:+ translated +:+ " to bucket "
               +:+ TARGET_BUCKET);
   Upload TARGET_BUCKET ("/tmp/" +:+ translated) translated].

Definition unlink_trace (translated : string) : list Action :=
  [ConsoleLog ("Deleting local file " +:+ "/tmp/" +:+ translated);
   Unlink ("/tmp/" +:+ translated)].

(** The last [.catch] of the chain. *)
Definition report_failure (err : string) : Promise unit :=
  perform (ConsoleError ("Failed to download, translate or upload file. "
                         +:+ err)) ;;;
  reject err.

(** The chain after the download, from the second [.then] on. *)
Definition chain_rest (w : World) (file_name : string) (data : option string)
  : Promise unit :=
  catch_
    (translate_stage w data ;;;
     write_stage w (translatedFilename file_name) ;;;
     upload_stage w (translatedFilename file_name) ;;;
     unlink_stage w (translatedFilename file_name) ;;;
     perform (ConsoleLog "Finished."))
    report_failure.

(** The chain from the third [.then] on, with the last [.catch]. *)
Definition chain_tail (w : World) (translated : string) : Promise unit :=
  catch_
    (write_stage w translated ;;;
     upload_stage w translated ;;;
     unlink_stage w translated ;;;
     perform (ConsoleLog "Finished."))
    report_failure.

(** What the upload stage logs once the upload has answered. *)
Definition upload_log (w : World) (translated : string) : list Action :=
  match storage_upload w TARGET_BUCKET ("/tmp/" +:+ translated) translated with
  | Fulfilled _ =>
      [ConsoleLog ("/tmp/" +:+ translated +:+ " uploaded to " +:+ TARGET_BUCKET)]
  | Rejected err =>
      [ConsoleError ("Error uploading translated file to bucket: " +:+ err)]
  | Pending => []
  end.

(** The event of a deleted object, as the storage trigger delivers it. *)
Definition deletion_event : Event :=
  mkEvent "cclabs-translate" (Some "sample-en.txt") (Some "not_exists")
          (Some "text/plain").

(** The event of the local test of the repository. *)
Definition sample_event : Event :=
  mkEvent "cclabs-translate" (Some "sample-en.txt") (Some "exists")
          (Some "text/plain").

(** A world that downloads [data], answers the translation call number [k]
    with [backend k], and whose upload answers [upload]. *)
Definition test_world (data : option string)
    (backend : nat -> list string -> outcome (list jsval))
    (upload : outcome unit) : World :=
  mkWorld (fun _ _ => Fulfilled data) (fun k b _ => backend k b) (fun k => k)
          (fun _ _ => None) (fun _ _ _ => upload) (fun _ => None).

(** Answers every line with [Hallo]. *)
Definition Hallo_backend (k : nat) (b : list string) : outcome (list jsval) :=
  Fulfilled (map (fun _ => JStr "Hallo") b).

(** Fails the second call only. *)
Definition quota_backend (k : nat) (b : list string) : outcome (list jsval) :=
  if k =? 1 then Rejected "quota" else Hallo_backend k b.

(** A text of 129 lines to translate: two batches. *)
Definition long_text : string := String.concat NL (repeat "Hello" 129).

(** ** Views of the regular expressions

    What an item asks of the character it consumes. *)
Definition item_matches (it : item) (c : ascii) : bool :=
  match it with
  | Once a => atom_matches a c
  | Plus a => atom_matches a c
  end.

(** The characters of [REGEX_TIMESTAMP_LINE], one atom per character:
    [dd:dd:dd,ddd --> dd:dd:dd,ddd]. *)
Definition timestamp_shape : list atom :=
  let d := Digit in
  let stamp := [d; d; Lit ":"; d; d; Lit ":"; d; d; Lit ","; d; d; d] in
  stamp ++ [Lit " "; Lit "-"; Lit "-"; Lit ">"; Lit " "] ++ stamp.

(** The characters other than digits that the two expressions accept. *)
Definition timestamp_punctuation : list ascii :=
  [":"; ","; " "; "-"; ">"]%char.

(** ** Where the actions of a run go

    The arguments the code passes on: the download is called on the file
    handle asked for with the bucket and the name of the event (the two
    strings of [Download] are the arguments of [storage.bucket] and of
    [file]), the translation calls ask for the target language, and the
    only file written, uploaded or deleted is the local file named after
    the object, uploaded to the target bucket under the translated name. *)
Definition addressed_to (event_bucket file_name : string) (a : Action) : Prop :=
  match a with
  | ConsoleLog _ | ConsoleError _ => True
  | Download b n => b = event_bucket /\ n = file_name
  | Translate _ target => target = TARGET_LANGUAGE
  | WriteFile p _ => p = "/tmp/" +:+ translatedFilename file_name
  | Upload b p destination =>
      b = TARGET_BUCKET
      /\ p = "/tmp/" +:+ translatedFilename file_name
      /\ destination = translatedFilename file_name
  | Unlink p => p = "/tmp/" +:+ translatedFilename file_name
  end.

(** A backend that translates line by line with [f]. *)
Definition linewise_backend (f : string -> string) (b : list string)
  : outcome (list jsval) :=
  Fulfilled (map (fun s => JStr (f s)) b).

(** * Properties *)

(** ** Matching *)

Lemma plus_exec_whole a k s m :
  (forall s' m', k s' = Some m' -> m' = s') ->
  plus_exec a k s = Some m -> m = s.
Proof.
  intros Hk. revert m.
  induction s as [|c s IH]; intros m; simpl; [discriminate|].
  destruct (atom_matches a c); [|discriminate].
  destruct (plus_exec a k s) as [m1|] eqn:E1.
  - intros [= <-]. f_equal. by apply IH.
  - destruct (k s) as [m2|] eqn:E2; simpl; [|discriminate].
    intros [= <-]. f_equal. by apply Hk.
Qed.

Lemma regex_exec_whole r s m : regex_exec r s = Some m -> m = s.
Proof.
  revert s m. induction r as [|[a|a] r IH]; intros s m; simpl.
  - destruct s; [by intros [= <-] | discriminate].
  - destruct s as [|c s]; [discriminate|].
    destruct (atom_matches a c); [|discriminate].
    destruct (regex_exec r s) as [m1|] eqn:E; simpl; [|discriminate].
    intros [= <-]. f_equal. by apply IH.
  - apply plus_exec_whole. exact IH.
Qed.

(** An anchored match returns the whole line as [m[0]]. *)
Lemma js_match_whole s r m : js_match s r = Some m -> m = s.
Proof. apply regex_exec_whole. Qed.

(** ** Splitting and joining *)

Lemma split_on_nonempty sep s : split_on sep s <> [].
Proof.
  destruct s as [|c s]; simpl; [done|].
  case_bool_decide; [done|]. by destruct (split_on sep s).
Qed.

Lemma concat_cons_cons sep (x y : string) (l : list string) :
  String.concat sep (x :: y :: l) = x +:+ sep +:+ String.concat sep (y :: l).
Proof. reflexivity. Qed.

Lemma concat_String_head sep c (seg : string) (segs : list string) :
  String.concat sep (String c seg :: segs)
  = String c (String.concat sep (seg :: segs)).
Proof. by destruct segs. Qed.

Lemma join_split_lines data : String.concat NL (split_lines data) = data.
Proof.
  unfold split_lines.
  induction data as [|c rest IH]; simpl; [done|].
  pose proof (split_on_nonempty LF rest) as Hne.
  destruct (split_on LF rest) as [|seg segs] eqn:E; [done|].
  case_bool_decide as Hc.
  - rewrite concat_cons_cons, IH. simpl. by rewrite Hc.
  - rewrite concat_String_head. by rewrite IH.
Qed.

Lemma map_render_JStr (lines : list string) : map render (map JStr lines) = lines.
Proof. induction lines; simpl; by f_equal. Qed.

(** ** processData *)

Lemma processLine_sentences st element index :
  sentences (processLine st element index) = sentences st ++ [element].
Proof.
  unfold processLine, push.
  destruct (js_match element REGEX_INDEX_LINE) as [m|] eqn:E1.
  { apply js_match_whole in E1. by subst. }
  destruct (js_match element REGEX_TIMESTAMP_LINE) as [m|] eqn:E2.
  { apply js_match_whole in E2. by subst. }
  case_bool_decide; by subst.
Qed.

Lemma processLine_output st element index :
  output (processLine st element index) = output st ++ [JStr element].
Proof.
  unfold processLine, push.
  destruct (js_match element REGEX_INDEX_LINE) as [m|] eqn:E1.
  { apply js_match_whole in E1. by subst. }
  destruct (js_match element REGEX_TIMESTAMP_LINE) as [m|] eqn:E2.
  { apply js_match_whole in E2. by subst. }
  case_bool_decide; by subst.
Qed.

Lemma processLine_requestLines st element index :
  requestLines (processLine st element index)
  = requestLines st ++ (if needs_translation element then [index] else []).
Proof.
  unfold processLine, push, needs_translation.
  destruct (js_match element REGEX_INDEX_LINE) as [m|] eqn:E1.
  { rewrite bool_decide_eq_true_2 by eauto. simpl. by rewrite app_nil_r. }
  destruct (js_match element REGEX_TIMESTAMP_LINE) as [m|] eqn:E2.
  { rewrite (bool_decide_eq_true_2 (is_Some (Some m))) by eauto.
    rewrite orb_true_r. simpl. by rewrite app_nil_r. }
  rewrite !(bool_decide_eq_false_2 (is_Some (@None string)))
    by (by intros [? ?]).
  case_bool_decide; simpl; [by rewrite app_nil_r | done].
Qed.

Lemma forEach_processLine lines : forall k st,
  let st' := forEach_from processLine lines k st in
  sentences st' = sentences st ++ lines
  /\ output st' = output st ++ map JStr lines
  /\ requestLines st' = requestLines st ++ text_positions k lines.
Proof.
  induction lines as [|element rest IH]; intros k st; simpl.
  - by rewrite !app_nil_r.
  - destruct (IH (S k) (processLine st element k)) as (Hs & Ho & Hr).
    rewrite Hs, Ho, Hr.
    rewrite processLine_sentences, processLine_output,
      processLine_requestLines.
    rewrite <- !app_assoc. simpl.
    repeat split; try done.
    by destruct (needs_translation element).
Qed.

Lemma processData_sentences data :
  sentences (processData data) = split_lines data.
Proof. apply (forEach_processLine (split_lines data) 0 (mkContent [] [] [])). Qed.

Lemma processData_output data :
  output (processData data) = map JStr (split_lines data).
Proof. apply (forEach_processLine (split_lines data) 0 (mkContent [] [] [])). Qed.

Lemma processData_requestLines data :
  requestLines (processData data) = text_positions 0 (split_lines data).
Proof. apply (forEach_processLine (split_lines data) 0 (mkContent [] [] [])). Qed.

(** ** The positions of the text lines *)

Lemma text_positions_bounds lines : forall k,
  Forall (fun position => k <= position < k + length lines)
         (text_positions k lines).
Proof.
  induction lines as [|element rest IH]; intros k; simpl; [constructor|].
  specialize (IH (S k)).
  assert (Forall (fun position => k <= position < k + S (length rest))
                 (text_positions (S k) rest)) as Hrest.
  { eapply Forall_impl; [exact IH|]. simpl. intros; lia. }
  destruct (needs_translation element); [|exact Hrest].
  constructor; [lia | exact Hrest].
Qed.

Lemma text_positions_increasing lines : forall k,
  StronglySorted lt (text_positions k lines).
Proof.
  induction lines as [|element rest IH]; intros k; simpl; [constructor|].
  destruct (needs_translation element); [|apply IH].
  constructor; [apply IH|].
  eapply Forall_impl; [apply text_positions_bounds|]. simpl. intros; lia.
Qed.

Lemma text_positions_project lines : forall pre : list string,
  map (fun position => (pre ++ lines) !! position)
      (text_positions (length pre) lines)
  = map Some (List.filter needs_translation lines).
Proof.
  induction lines as [|element rest IH]; intros pre; simpl; [done|].
  specialize (IH (pre ++ [element])).
  rewrite length_app, Nat.add_1_r, <- app_assoc in IH. simpl in IH.
  destruct (needs_translation element); [|exact IH].
  simpl. rewrite IH. f_equal. by rewrite list_lookup_middle.
Qed.

(** ** Merging *)

Lemma concat_segments_from (results : list (list jsval)) : forall k acc,
  forEach_from (fun translations segment0 (_ : nat) => translations ++ segment0)
               results k acc
  = acc ++ concat results.
Proof.
  induction results as [|segment rest IH]; intros k acc; simpl.
  - by rewrite app_nil_r.
  - by rewrite IH, app_assoc.
Qed.

Lemma concat_segments_concat results : concat_segments results = concat results.
Proof. apply concat_segments_from. Qed.

Lemma js_get_drop translations i : js_get (drop i translations) 0 = js_get translations i.
Proof. unfold js_get. by rewrite lookup_drop, Nat.add_0_r. Qed.

Lemma js_set_middle (pre post : list jsval) old v :
  js_set (pre ++ old :: post) (length pre) v = pre ++ v :: post.
Proof.
  unfold js_set. rewrite decide_True.
  - rewrite (insert_app_r_alt pre (old :: post) (length pre)) by lia.
    by rewrite Nat.sub_diag.
  - rewrite length_app. simpl. lia.
Qed.

(** The [forEach] over [requestLines] computes [reconstitute]. *)
Lemma merge_forEach translations lines : forall pre i,
  forEach_from (merge_step translations) (text_positions (length pre) lines) i
               (pre ++ map JStr lines)
  = pre ++ reconstitute lines (drop i translations).
Proof.
  induction lines as [|element rest IH]; intros pre i; simpl; [done|].
  destruct (needs_translation element); simpl.
  - unfold merge_step at 2. rewrite js_set_middle.
    specialize (IH (pre ++ [js_get translations i]) (S i)).
    rewrite length_app, Nat.add_1_r, <- app_assoc in IH. simpl in IH.
    rewrite IH, js_get_drop, drop_drop, Nat.add_1_r.
    by rewrite <- app_assoc.
  - specialize (IH (pre ++ [JStr element]) i).
    rewrite length_app, Nat.add_1_r, <- app_assoc in IH. simpl in IH.
    by rewrite IH, <- app_assoc.
Qed.

Lemma merge_translations_output data translations :
  output (merge_translations (processData data) translations)
  = reconstitute (split_lines data) translations.
Proof.
  unfold merge_translations. simpl.
  rewrite processData_requestLines, processData_output.
  apply (merge_forEach translations (split_lines data) [] 0).
Qed.

Lemma reconstitute_identity lines :
  reconstitute lines (map JStr (List.filter needs_translation lines))
  = map JStr lines.
Proof.
  induction lines as [|element rest IH]; simpl; [done|].
  destruct (needs_translation element) eqn:E; simpl.
  - rewrite drop_0. by rewrite IH.
  - by rewrite IH.
Qed.

Lemma reconstitute_length lines : forall translations,
  length (reconstitute lines translations) = length lines.
Proof.
  induction lines as [|element rest IH]; intros translations; simpl; [done|].
  destruct (needs_translation element); simpl; by rewrite IH.
Qed.

(** ** The claims about parsing and reconstruction *)

(** C1. For every input text, [processData] followed by joining the output
    array with line feeds gives the input text back, both when the output
    is left at its defaults and when every text line is merged back as its
    own translation. *)
Theorem parse_reconstitute_identity (data : string) :
  output_text (processData data) = data
  /\ output_text
       (merge_translations (processData data)
          (map JStr (filter_sentences (processData data))))
     = data.
Proof.
  unfold output_text, js_join. split.
  - rewrite processData_output, map_render_JStr. apply join_split_lines.
  - rewrite merge_translations_output.
    unfold filter_sentences. rewrite processData_sentences.
    rewrite reconstitute_identity, map_render_JStr. apply join_split_lines.
Qed.

(** C9. For every input text, filtering [content.sentences] with "not an
    index line, not a timestamp line, not empty" gives exactly the sentences
    found at the indices of [content.requestLines], in the same order; the
    indices are strictly increasing and all within [content.sentences]. *)
Theorem filter_agrees_with_requestLines (data : string) :
  map (fun position => sentences (processData data) !! position)
      (requestLines (processData data))
  = map Some (filter_sentences (processData data))
  /\ StronglySorted lt (requestLines (processData data))
  /\ Forall (fun position => position < length (sentences (processData data)))
            (requestLines (processData data)).
Proof.
  unfold filter_sentences.
  rewrite processData_sentences, processData_requestLines.
  split; [|split].
  - apply (text_positions_project (split_lines data) []).
  - apply text_positions_increasing.
  - eapply Forall_impl; [apply text_positions_bounds|]. simpl. intros; lia.
Qed.

(** ** The batch loop *)

Lemma well_sized_bounded {A} (maxSize : Z) (batches : list (list A)) :
  well_sized maxSize batches ->
  Forall (fun b => (Z.of_nat (length b) <= maxSize)%Z) batches.
Proof.
  induction 1 as [|b Hb|b b' bs Hb Hrest IH].
  - apply Forall_nil_2.
  - apply Forall_cons_2; [exact Hb | apply Forall_nil_2].
  - apply Forall_cons_2; [lia | exact IH].
Qed.

Lemma well_sized_full {A} (maxSize : Z) (batches : list (list A)) :
  well_sized maxSize batches ->
  forall k b, S k < length batches -> batches !! k = Some b ->
  Z.of_nat (length b) = maxSize.
Proof.
  induction 1 as [|b0 Hb0|b0 b' bs Hb0 Hrest IH]; intros k b Hk Hlook;
    simpl in *; [lia | lia |].
  destruct k as [|k]; simpl in Hlook.
  - by injection Hlook as <-.
  - apply (IH k b); [simpl; lia | done].
Qed.

Section Batches.
Context {A : Type}.
Variable filtered : list A.
Variable maxSize : Z.
Hypothesis maxSize_pos : (1 <= maxSize)%Z.

Local Abbreviation len := (Z.of_nat (length filtered)).

Lemma js_slice_inside (start end_ : Z) :
  (0 <= start <= len)%Z -> (start <= end_ <= len)%Z ->
  js_slice filtered start end_
  = take (Z.to_nat (end_ - start)) (drop (Z.to_nat start) filtered).
Proof.
  intros Hs He. unfold js_slice.
  destruct (Z.ltb_spec start 0); [lia|].
  destruct (Z.ltb_spec end_ 0); [lia|].
  by rewrite !Z.min_l by lia.
Qed.

Lemma batch_loop_spec (fuel : nat) : forall (i : Z) (promises : list (list A)),
  (0 <= i)%Z -> (len - i <= Z.of_nat fuel)%Z ->
  exists batches,
    batch_loop fuel maxSize filtered i promises = Some (promises ++ batches)
    /\ concat batches = drop (Z.to_nat i) filtered
    /\ well_sized maxSize batches
    /\ ((len <= i)%Z -> batches = []).
Proof.
  induction fuel as [|fuel IH]; intros i promises Hi Hfuel; simpl.
  - destruct (Z.ltb_spec i len); [lia|].
    exists []. rewrite app_nil_r, drop_ge by lia.
    repeat split; constructor.
  - destruct (Z.ltb_spec i len) as [Hlt|Hge].
    + match goal with
      | |- context [js_slice ?arr ?from ?to] => set (b := js_slice arr from to)
      end.
      destruct (IH (i + maxSize)%Z (push promises b))
        as (bs & Hrun & Hcat & Hsz & Hend); [lia | lia |].
      exists (b :: bs).
      rewrite Hrun. unfold push. rewrite <- app_assoc. simpl.
      assert (b = take (Z.to_nat (Z.min len (i + maxSize) - i))
                       (drop (Z.to_nat i) filtered)) as Hb.
      { subst b. rewrite js_slice_inside by lia. do 2 f_equal. lia. }
      assert (Z.of_nat (length b) = Z.min len (i + maxSize) - i)%Z as Hlen.
      { rewrite Hb, length_take, length_drop. lia. }
      split; [done|]. split; [|split; [|lia]].
      * rewrite Hcat, Hb.
        destruct (Z.le_gt_cases len (i + maxSize)) as [Hlast|Hmore].
        -- rewrite (drop_ge filtered (Z.to_nat (i + maxSize))) by lia.
           rewrite app_nil_r, take_ge; [done|].
           rewrite length_drop. lia.
        -- rewrite Z.min_r by lia.
           replace (Z.to_nat (i + maxSize))
             with (Z.to_nat i + Z.to_nat (i + maxSize - i)) by lia.
           rewrite <- drop_drop. apply take_drop.
      * destruct bs as [|b' bs].
        -- constructor. lia.
        -- constructor; [|done].
           destruct (Z.le_gt_cases len (i + maxSize)) as [Hlast|Hmore];
             [by specialize (Hend Hlast) | lia].
    + exists []. rewrite app_nil_r, drop_ge by lia.
      repeat split; constructor.
Qed.

Lemma planBatches_spec :
  exists batches,
    planBatches maxSize filtered = Some batches
    /\ concat batches = filtered
    /\ well_sized maxSize batches.
Proof.
  destruct (batch_loop_spec (length filtered) 0 [])
    as (bs & Hrun & Hcat & Hsz & _); [lia | lia |].
  exists bs. by repeat split.
Qed.
End Batches.

(** C3. For every list of lines and every batch size of at least one, the
    loop ends and its batches are each at most the batch size long, all but
    possibly the last exactly the batch size long, and concatenated in order
    give the list back; five lines with a batch size of two give batches of
    sizes 2, 2 and 1. *)
Theorem planBatches_partition {A} (filtered : list A) (maxSize : Z) :
  (1 <= maxSize)%Z ->
  exists batches,
    planBatches maxSize filtered = Some batches
    /\ Forall (fun b => (Z.of_nat (length b) <= maxSize)%Z) batches
    /\ (forall k b, S k < length batches -> batches !! k = Some b ->
        Z.of_nat (length b) = maxSize)
    /\ concat batches = filtered
    /\ (length filtered = 5 -> maxSize = 2%Z -> map length batches = [2; 2; 1]).
Proof.
  intros Hmax.
  destruct (planBatches_spec filtered maxSize Hmax) as (bs & Hrun & Hcat & Hsz).
  exists bs. split; [done|].
  split; [by apply well_sized_bounded|].
  split; [by apply well_sized_full|].
  split; [done|].
  intros Hfive ->.
  destruct filtered as [|x1 [|x2 [|x3 [|x4 [|x5 [|x6 rest]]]]]];
    try discriminate Hfive.
  vm_compute in Hrun. by injection Hrun as <-.
Qed.

Lemma planBatches_partition_witness :
  exists batches,
    planBatches 2 ["a"; "b"; "c"; "d"; "e"] = Some batches
    /\ map length batches = [2; 2; 1]
    /\ concat batches = ["a"; "b"; "c"; "d"; "e"].
Proof.
  destruct (planBatches_partition ["a"; "b"; "c"; "d"; "e"] 2 ltac:(lia))
    as (bs & Hrun & _ & _ & Hcat & Hsizes).
  exists bs. split; [exact Hrun|]. split; [|exact Hcat].
  apply Hsizes; reflexivity.
Defined.

(** ** Lines of the output text *)

Lemma split_on_LF_free s : LF_free s -> split_on LF s = [s].
Proof.
  unfold LF_free. induction s as [|c s IH]; simpl; [done|].
  case_bool_decide; [discriminate|]. simpl. intros Hs. by rewrite IH.
Qed.

Lemma split_on_append s rest :
  LF_free s -> split_on LF (s +:+ NL +:+ rest) = s :: split_on LF rest.
Proof.
  unfold LF_free. induction s as [|c s IH]; simpl.
  - done.
  - case_bool_decide; [discriminate|]. simpl. intros Hs. by rewrite IH.
Qed.

Lemma split_lines_LF_free data : Forall LF_free (split_lines data).
Proof.
  unfold split_lines, LF_free.
  induction data as [|c rest IH]; simpl.
  { apply Forall_cons_2; [done | apply Forall_nil_2]. }
  case_bool_decide as Hc.
  - by apply Forall_cons_2.
  - pose proof (split_on_nonempty LF rest) as Hne.
    destruct (split_on LF rest) as [|seg segs]; [done|].
    inversion IH as [|? ? Hseg Hsegs]; subst.
    apply Forall_cons_2; [|done]. simpl. by rewrite bool_decide_eq_false_2.
Qed.

(** Joining lines without line feeds and splitting again gives the lines. *)
Lemma split_join_lines (lines : list string) :
  lines <> [] -> Forall LF_free lines ->
  split_lines (String.concat NL lines) = lines.
Proof.
  unfold split_lines.
  induction lines as [|x rest IH]; [done|]. intros _ Hfree.
  inversion Hfree as [|? ? Hx Hrest]; subst.
  destruct rest as [|y rest].
  - by apply split_on_LF_free.
  - rewrite concat_cons_cons, split_on_append by done.
    by rewrite IH.
Qed.

Lemma js_get_LF_free translations i :
  Forall (fun t => LF_free (render t)) translations ->
  LF_free (render (js_get translations i)).
Proof.
  intros Hfree. unfold js_get.
  destruct (translations !! i) as [t|] eqn:E; simpl; [|done].
  exact (Forall_lookup_1 _ translations i t Hfree E).
Qed.

Lemma reconstitute_LF_free lines : forall translations,
  Forall LF_free lines ->
  Forall (fun t => LF_free (render t)) translations ->
  Forall LF_free (map render (reconstitute lines translations)).
Proof.
  induction lines as [|element rest IH]; intros translations Hl Ht; simpl;
    [constructor|].
  inversion Hl as [|? ? He Hrest]; subst.
  destruct (needs_translation element); simpl; constructor.
  - by apply js_get_LF_free.
  - apply IH; [done|]. by apply Forall_drop.
  - done.
  - by apply IH.
Qed.

(** Lines that need no translation keep their place and content. *)
Lemma reconstitute_other lines : forall translations k line,
  lines !! k = Some line -> needs_translation line = false ->
  reconstitute lines translations !! k = Some (JStr line).
Proof.
  induction lines as [|element rest IH]; intros translations k line Hk Hline;
    [done|].
  simpl. destruct k as [|k]; simpl in Hk.
  - injection Hk as ->. by rewrite Hline.
  - destruct (needs_translation element); simpl; by apply IH.
Qed.

(** The [i]-th text line receives [translations[i]]. *)
Lemma reconstitute_text lines : forall translations k i position,
  text_positions k lines !! i = Some position ->
  reconstitute lines translations !! (position - k)
  = Some (js_get translations i).
Proof.
  induction lines as [|element rest IH]; intros translations k i position Hi;
    [done|].
  simpl in *.
  assert (forall j p, text_positions (S k) rest !! j = Some p ->
                      p - k = S (p - S k)) as Hshift.
  { intros j p Hj.
    pose proof (text_positions_bounds rest (S k)) as Hb.
    pose proof (Forall_lookup_1 _ _ _ _ Hb Hj) as Hp. simpl in Hp. lia. }
  destruct (needs_translation element).
  - destruct i as [|i]; simpl in Hi.
    + injection Hi as <-. by rewrite Nat.sub_diag.
    + rewrite (Hshift _ _ Hi). simpl.
      rewrite (IH _ _ _ _ Hi). f_equal.
      unfold js_get. by rewrite lookup_drop.
  - rewrite (Hshift _ _ Hi). simpl. by apply IH.
Qed.

Lemma text_positions_needs lines : forall k i position,
  text_positions k lines !! i = Some position ->
  exists line, lines !! (position - k) = Some line
               /\ needs_translation line = true.
Proof.
  induction lines as [|element rest IH]; intros k i position Hi; [done|].
  simpl in *.
  assert (forall j p, text_positions (S k) rest !! j = Some p ->
                      p - k = S (p - S k)) as Hshift.
  { intros j p Hj.
    pose proof (text_positions_bounds rest (S k)) as Hb.
    pose proof (Forall_lookup_1 _ _ _ _ Hb Hj) as Hp. simpl in Hp. lia. }
  destruct (needs_translation element) eqn:E.
  - destruct i as [|i]; simpl in Hi.
    + injection Hi as <-. rewrite Nat.sub_diag. by exists element.
    + rewrite (Hshift _ _ Hi). simpl. by eapply IH.
  - rewrite (Hshift _ _ Hi). simpl. by eapply IH.
Qed.

Lemma needs_translation_nonempty line :
  needs_translation line = true -> line <> EmptyString.
Proof.
  intros H ->. vm_compute in H. discriminate.
Qed.

Lemma output_lines data translations :
  Forall (fun t => LF_free (render t)) translations ->
  split_lines (output_text (merge_translations (processData data) translations))
  = map render (reconstitute (split_lines data) translations).
Proof.
  intros Hfree. unfold output_text, js_join.
  rewrite merge_translations_output.
  apply split_join_lines.
  - intros Hnil. apply (f_equal length) in Hnil.
    rewrite length_map, reconstitute_length in Hnil.
    pose proof (split_on_nonempty LF data) as Hne.
    unfold split_lines in Hnil. by destruct (split_on LF data).
  - apply reconstitute_LF_free; [apply split_lines_LF_free | done].
Qed.

Example scenario_A_output :
  output_text (merge_translations (processData scenario_A) [JStr "Hallo"])
  = String.concat NL ["1"; "00:00:01,000 --> 00:00:02,000"; "Hallo"; ""; ""].
Proof. reflexivity. Qed.

(** C5 as stated fails: a translation that contains a line feed adds a
    line to the output text. The single line [Hello] translated to two
    lines gives a text of two lines. *)
Lemma line_feed_in_translation_adds_line :
  length (split_lines
            (output_text
               (merge_translations (processData "Hello")
                                   [JStr ("Hal" +:+ NL +:+ "lo")])))
  <> length (split_lines "Hello").
Proof. vm_compute. lia. Qed.

(** C5, amended. For every input text and every list of translations, the
    output array has as many entries as the input has lines and the entries
    of index, timestamp and blank lines are the input lines unchanged; when
    no translation contains a line feed, the output text has as many lines
    as the input text and those lines are unchanged in it. *)
Theorem reconstitute_preserves_structure (data : string)
    (translations : list jsval) :
  let merged := merge_translations (processData data) translations in
  length (output merged) = length (split_lines data)
  /\ (forall k line,
        split_lines data !! k = Some line -> needs_translation line = false ->
        output merged !! k = Some (JStr line))
  /\ (Forall (fun t => LF_free (render t)) translations ->
      length (split_lines (output_text merged)) = length (split_lines data)
      /\ forall k line,
           split_lines data !! k = Some line -> needs_translation line = false ->
           split_lines (output_text merged) !! k = Some line).
Proof.
  cbv zeta. rewrite merge_translations_output.
  split; [apply reconstitute_length|].
  split; [intros k line Hk Hline; by apply reconstitute_other|].
  intros Hfree. rewrite output_lines by done.
  split; [by rewrite length_map, reconstitute_length|].
  intros k line Hk Hline.
  change (map render ?l !! k) with ((render <$> l) !! k).
  by rewrite list_lookup_fmap, (reconstitute_other _ _ _ _ Hk Hline).
Qed.

Lemma reconstitute_preserves_structure_witness :
  length (split_lines
            (output_text
               (merge_translations (processData scenario_A) [JStr "Hallo"])))
  = length (split_lines scenario_A)
  /\ split_lines
       (output_text
          (merge_translations (processData scenario_A) [JStr "Hallo"])) !! 1
     = Some "00:00:01,000 --> 00:00:02,000".
Proof.
  destruct (reconstitute_preserves_structure scenario_A [JStr "Hallo"])
    as (_ & _ & Htext).
  destruct Htext as [Hcount Hkeep].
  - apply Forall_cons_2; [reflexivity | apply Forall_nil_2].
  - split; [exact Hcount|]. apply Hkeep; reflexivity.
Defined.

(** C10 as stated fails: with fewer translations than lines to translate,
    a translation that contains a line feed shifts the lines of the joined
    text. For the lines [Hello] and [world] and the single translation
    [Hal], line feed, [lo], the text has three lines for two, and its line
    at the surplus position 1 is [lo], not the empty line. *)
Lemma line_feed_shifts_surplus_line :
  length [JStr ("Hal" +:+ NL +:+ "lo")]
  < length (requestLines (processData ("Hello" +:+ NL +:+ "world")))
  /\ requestLines (processData ("Hello" +:+ NL +:+ "world")) !! 1 = Some 1
  /\ output_text
       (merge_translations (processData ("Hello" +:+ NL +:+ "world"))
                           [JStr ("Hal" +:+ NL +:+ "lo")])
     = "Hal" +:+ NL +:+ "lo" +:+ NL
  /\ length (split_lines
               (output_text
                  (merge_translations
                     (processData ("Hello" +:+ NL +:+ "world"))
                     [JStr ("Hal" +:+ NL +:+ "lo")])))
     <> length (split_lines ("Hello" +:+ NL +:+ "world"))
  /\ split_lines
       (output_text
          (merge_translations (processData ("Hello" +:+ NL +:+ "world"))
                              [JStr ("Hal" +:+ NL +:+ "lo")])) !! 1
     <> Some EmptyString.
Proof.
  split; [vm_compute; lia|].
  split; [reflexivity|].
  split; [reflexivity|].
  split; [vm_compute; lia|].
  vm_compute. intros H. discriminate H.
Qed.

(** C10, amended. When there are fewer translations than
    [content.requestLines], there are surplus positions and the merge
    stores [undefined] at every one of them, which [join] prints as the
    empty string and not as the original text, which is not empty; the
    output array keeps as many entries as the input has lines; when no
    translation contains a line feed, the joined text has as many lines as
    the input and its line at every surplus position is empty. *)
Theorem missing_translations_render_empty (data : string)
    (translations : list jsval) :
  let content := processData data in
  let merged := merge_translations content translations in
  length translations < length (requestLines content) ->
  (exists position,
      requestLines content !! length translations = Some position)
  /\ (forall i position,
      length translations <= i -> requestLines content !! i = Some position ->
      output merged !! position = Some JUndefined
      /\ (render <$> output merged) !! position = Some EmptyString
      /\ exists original, sentences content !! position = Some original
                          /\ original <> EmptyString)
  /\ length (output merged) = length (split_lines data)
  /\ (Forall (fun t => LF_free (render t)) translations ->
      length (split_lines (output_text merged)) = length (split_lines data)
      /\ forall i position,
           length translations <= i ->
           requestLines content !! i = Some position ->
           split_lines (output_text merged) !! position = Some EmptyString).
Proof.
  cbv zeta. intros Hfewer.
  split; [by apply lookup_lt_is_Some_2|]. clear Hfewer.
  rewrite merge_translations_output, processData_requestLines,
    processData_sentences.
  assert (forall i position,
      length translations <= i ->
      text_positions 0 (split_lines data) !! i = Some position ->
      reconstitute (split_lines data) translations !! position
      = Some JUndefined) as Hundef.
  { intros i position Hi Hpos.
    pose proof (reconstitute_text _ translations _ _ _ Hpos) as Hget.
    rewrite Nat.sub_0_r in Hget. rewrite Hget. f_equal.
    unfold js_get. by rewrite lookup_ge_None_2. }
  split; [|split; [apply reconstitute_length|]].
  - intros i position Hi Hpos.
    split; [by eapply Hundef|].
    split; [by rewrite list_lookup_fmap, (Hundef _ _ Hi Hpos)|].
    destruct (text_positions_needs _ _ _ _ Hpos) as (line & Hline & Hneeds).
    rewrite Nat.sub_0_r in Hline.
    exists line. split; [done|]. by apply needs_translation_nonempty.
  - intros Hfree. rewrite output_lines by done.
    split; [by rewrite length_map, reconstitute_length|].
    intros i position Hi Hpos.
    change (map render ?l !! position) with ((render <$> l) !! position).
    by rewrite list_lookup_fmap, (Hundef _ _ Hi Hpos).
Qed.

Lemma missing_translations_render_empty_witness :
  output (merge_translations (processData ("Hello" +:+ NL +:+ "world"))
                             [JStr "Hallo"]) !! 1
  = Some JUndefined
  /\ output_text (merge_translations (processData ("Hello" +:+ NL +:+ "world"))
                                     [JStr "Hallo"])
     = "Hallo" +:+ NL.
Proof.
  destruct (missing_translations_render_empty ("Hello" +:+ NL +:+ "world")
                                              [JStr "Hallo"])
    as (_ & Hsurplus & _ & _).
  - vm_compute. lia.
  - split; [|reflexivity].
    apply (Hsurplus 1 1); [simpl; lia | reflexivity].
Defined.

(** ** The promise chain *)

Lemma then_Fulfilled {A B} (p : Promise A) (f : A -> Promise B) v a v' t o v'' t' :
  p v = (Fulfilled a, v', t) -> f a v' = (o, v'', t') ->
  then_ p f v = (o, v'', t ++ t').
Proof. intros Hp Hf. unfold then_. by rewrite Hp, Hf. Qed.

Lemma then_Rejected {A B} (p : Promise A) (f : A -> Promise B) v err v' t :
  p v = (Rejected err, v', t) -> then_ p f v = (Rejected err, v', t).
Proof. intros Hp. unfold then_. by rewrite Hp. Qed.

Lemma catch_Fulfilled {A} (p : Promise A) h v a v' t :
  p v = (Fulfilled a, v', t) -> catch_ p h v = (Fulfilled a, v', t).
Proof. intros Hp. unfold catch_. by rewrite Hp. Qed.

Lemma catch_Rejected {A} (p : Promise A) h v err v' t o v'' t' :
  p v = (Rejected err, v', t) -> h err v' = (o, v'', t') ->
  catch_ p h v = (o, v'', t ++ t').
Proof. intros Hp Hh. unfold catch_. by rewrite Hp, Hh. Qed.

(** *** Promise.all *)

Lemma first_rejection_Some {A} time (results : list (outcome A)) : forall k t err,
  first_rejection time k results = Some (t, err) ->
  exists j, results !! j = Some (Rejected err).
Proof.
  induction results as [|r rest IH]; intros k t err; simpl; [discriminate|].
  destruct (first_rejection time (S k) rest) as [[t' err']|] eqn:E.
  - destruct (IH _ _ _ E) as [j Hj].
    destruct r as [a|e|].
    + intros [= <- <-]. by exists (S j).
    + destruct (t' <? time k); intros [= <- <-]; [by exists (S j) | by exists 0].
    + intros [= <- <-]. by exists (S j).
  - destruct r as [a|e|]; try discriminate.
    intros [= <- <-]. by exists 0.
Qed.

Lemma first_rejection_None {A} time (results : list (outcome A)) : forall k j err,
  first_rejection time k results = None ->
  results !! j <> Some (Rejected err).
Proof.
  induction results as [|r rest IH]; intros k j err; simpl; [done|].
  destruct (first_rejection time (S k) rest) as [[t' err']|] eqn:E.
  - destruct r as [a|e|]; [discriminate | | discriminate].
    by destruct (t' <? time k).
  - destruct r as [a|e|]; [|discriminate|]; intros _;
      (destruct j as [|j]; simpl; [done | by eapply IH]).
Qed.

(** One rejected call rejects [Promise.all], with the error of a rejected
    call. *)
Lemma Promise_all_Rejected {A} time (results : list (outcome A)) j err :
  results !! j = Some (Rejected err) ->
  exists j' cause,
    results !! j' = Some (Rejected cause)
    /\ Promise_all time results = Rejected cause.
Proof.
  intros Hj. unfold Promise_all.
  destruct (first_rejection time 0 results) as [[t cause]|] eqn:E.
  - destruct (first_rejection_Some _ _ _ _ _ E) as [j' Hj'].
    by exists j', cause.
  - by destruct (first_rejection_None _ _ _ j err E).
Qed.

(** When every call is fulfilled so is [Promise.all], with the values in
    the order of the calls. *)
Lemma Promise_all_Fulfilled {A} time (results : list (outcome A)) :
  Forall (fun r => exists a, r = Fulfilled a) results ->
  exists values,
    Promise_all time results = Fulfilled values
    /\ results = map Fulfilled values.
Proof.
  intros Hall. unfold Promise_all.
  assert (forall k, first_rejection time k results = None) as ->.
  { induction Hall as [|r rest [a ->] _ IH]; intros k; simpl; [done|].
    by rewrite IH. }
  induction Hall as [|r rest [a ->] _ IH]; simpl.
  - by exists [].
  - destruct (all_fulfilled rest) as [values|]; simpl.
    + destruct IH as (vs & [= <-] & ->). by exists (a :: values).
    + by destruct IH as (vs & ? & _).
Qed.

(** *** The stages *)

Lemma truthy_Some d : d <> EmptyString -> truthy (Some d) = true.
Proof. intros Hd. simpl. by rewrite bool_decide_eq_false_2. Qed.

Lemma translate_stage_no_data w data v :
  truthy data = false ->
  translate_stage w data v
  = (Rejected "Could not read data", v, [ConsoleError "Could not read data"]).
Proof. intros Hdata. unfold translate_stage. by rewrite Hdata. Qed.

Lemma translate_stage_Rejected w d batches cause v :
  d <> EmptyString ->
  planBatches MAX_SEGMENT_SIZE (filter_sentences (processData d)) = Some batches ->
  Promise_all (translate_time w) (answers_of w batches) = Rejected cause ->
  translate_stage w (Some d) v
  = (Rejected ("One or more translations failed (" +:+ cause +:+ ")"),
     Some (processData d),
     request_trace d batches ++ [ConsoleError ("Translation failed: " +:+ cause)]).
Proof.
  intros Hd Hplan Hall. unfold translate_stage.
  rewrite (truthy_Some d Hd). cbn [template].
  unfold then_, catch_, perform, set_content, settle, reject, dispatch.
  rewrite Hplan. fold (answers_of w batches). rewrite Hall.
  unfold request_trace. cbn [app]. by rewrite <- app_assoc.
Qed.

Lemma translate_stage_Fulfilled w d batches results v :
  d <> EmptyString ->
  planBatches MAX_SEGMENT_SIZE (filter_sentences (processData d)) = Some batches ->
  Promise_all (translate_time w) (answers_of w batches) = Fulfilled results ->
  translate_stage w (Some d) v
  = (Fulfilled tt,
     Some (merge_translations (processData d) (concat_segments results)),
     request_trace d batches
     ++ [ConsoleLog "Translations done.";
         ConsoleLog (string_of_nat (length results) +:+ " segments returned")]).
Proof.
  intros Hd Hplan Hall. unfold translate_stage.
  rewrite (truthy_Some d Hd). cbn [template].
  unfold merge_results, then_, catch_, perform, set_content, get_content,
    settle, reject, dispatch.
  rewrite Hplan. fold (answers_of w batches). rewrite Hall.
  unfold request_trace. cbn [app]. by rewrite <- app_assoc.
Qed.

Lemma write_stage_run w translated content :
  write_stage w translated (Some content)
  = (match fs_writeFile w ("/tmp/" +:+ translated) (output_text content) with
     | Some err => Rejected err
     | None => Fulfilled tt
     end, Some content, write_trace translated content).
Proof.
  unfold write_stage, then_, get_content, perform, reject, resolve, write_trace.
  by destruct (fs_writeFile w _ _).
Qed.

Lemma upload_stage_run w translated v :
  upload_stage w translated v
  = match storage_upload w TARGET_BUCKET ("/tmp/" +:+ translated) translated with
    | Fulfilled _ =>
        (Fulfilled tt, v,
         upload_trace translated
         ++ [ConsoleLog ("/tmp/" +:+ translated +:+ " uploaded to "
                         +:+ TARGET_BUCKET)])
    | Rejected err =>
        (Fulfilled tt, v,
         upload_trace translated
         ++ [ConsoleError ("Error uploading translated file to bucket: "
                           +:+ err)])
    | Pending => (Pending, v, upload_trace translated)
    end.
Proof.
  unfold upload_stage, then_, catch_, perform, settle, upload_trace.
  by destruct (storage_upload w _ _ _).
Qed.

Lemma unlink_stage_run w translated v :
  unlink_stage w translated v
  = (match fs_unlink w ("/tmp/" +:+ translated) with
     | Some err => Rejected err
     | None => Fulfilled tt
     end, v, unlink_trace translated).
Proof.
  unfold unlink_stage, then_, perform, reject, resolve, unlink_trace.
  by destruct (fs_unlink w _).
Qed.

(** The run of the function in terms of the chain. *)
Lemma translateSRTFiles_run w event o v t :
  truthy (name event) = true ->
  chain w (bucket event) (template (name event)) None
  = (o, v, Download (bucket event) (template (name event)) :: t) ->
  translateSRTFiles w event = mkRun (Returned o) v (start_trace event ++ t).
Proof.
  intros Hname Hchain. unfold translateSRTFiles, start_trace.
  rewrite Hname, Hchain. f_equal. by rewrite <- app_assoc.
Qed.

Lemma catch_then_prefix {A B} (p : Promise A) (f : A -> Promise B) h
    v a v' t o v'' t' :
  p v = (Fulfilled a, v', t) ->
  catch_ (f a) h v' = (o, v'', t') ->
  catch_ (then_ p f) h v = (o, v'', t ++ t').
Proof.
  unfold catch_, then_. intros -> Hrest.
  destruct (f a v') as [[[b|err|] v1] t1].
  - by injection Hrest as <- <- <-.
  - destruct (h err v1) as [[o2 v2] t2].
    injection Hrest as <- <- <-. by rewrite app_assoc.
  - by injection Hrest as <- <- <-.
Qed.

(** The chain once the download has answered with [data]. *)
Lemma chain_after_download w bucket_name file_name data o v t :
  storage_download w bucket_name file_name = Fulfilled data ->
  chain_rest w file_name data None = (o, v, t) ->
  chain w bucket_name file_name None = (o, v, Download bucket_name file_name :: t).
Proof.
  intros Hdl Hrest. unfold chain.
  change (Download bucket_name file_name :: t)
    with (([Download bucket_name file_name] ++ []) ++ ([] ++ t)).
  eapply catch_then_prefix.
  { unfold then_, perform, settle. by rewrite Hdl. }
  eapply catch_then_prefix; [|exact Hrest].
  unfold decode_stage, resolve. by destruct data.
Qed.

(** The run of the function once the download has answered. *)
Lemma run_after_download w event data o v t :
  truthy (name event) = true ->
  storage_download w (bucket event) (template (name event)) = Fulfilled data ->
  chain_rest w (template (name event)) data None = (o, v, t) ->
  translateSRTFiles w event = mkRun (Returned o) v (start_trace event ++ t).
Proof.
  intros Hname Hdl Hrest. apply translateSRTFiles_run; [done|].
  by apply (chain_after_download w _ _ data).
Qed.

Lemma report_failure_run err v :
  report_failure err v
  = (Rejected err, v,
     [ConsoleError ("Failed to download, translate or upload file. " +:+ err)]).
Proof. reflexivity. Qed.

Lemma chain_tail_write_fails w translated content err :
  fs_writeFile w ("/tmp/" +:+ translated) (output_text content) = Some err ->
  chain_tail w translated (Some content)
  = (Rejected err, Some content,
     write_trace translated content
     ++ [ConsoleError ("Failed to download, translate or upload file. "
                       +:+ err)]).
Proof.
  intros Hwrite. unfold chain_tail.
  eapply catch_Rejected; [|apply report_failure_run].
  apply then_Rejected. by rewrite write_stage_run, Hwrite.
Qed.

Lemma upload_stage_settled w translated v :
  storage_upload w TARGET_BUCKET ("/tmp/" +:+ translated) translated <> Pending ->
  upload_stage w translated v
  = (Fulfilled tt, v, upload_trace translated ++ upload_log w translated).
Proof.
  intros Hup. rewrite upload_stage_run. unfold upload_log.
  by destruct (storage_upload w _ _ _).
Qed.

Lemma chain_tail_unlink_fails w translated content err :
  fs_writeFile w ("/tmp/" +:+ translated) (output_text content) = None ->
  storage_upload w TARGET_BUCKET ("/tmp/" +:+ translated) translated <> Pending ->
  fs_unlink w ("/tmp/" +:+ translated) = Some err ->
  chain_tail w translated (Some content)
  = (Rejected err, Some content,
     (write_trace translated content
      ++ (upload_trace translated ++ upload_log w translated)
      ++ unlink_trace translated)
     ++ [ConsoleError ("Failed to download, translate or upload file. "
                       +:+ err)]).
Proof.
  intros Hwrite Hup Hunlink. unfold chain_tail.
  eapply catch_Rejected; [|apply report_failure_run].
  eapply then_Fulfilled; [by rewrite write_stage_run, Hwrite|].
  eapply then_Fulfilled; [by apply upload_stage_settled|].
  apply then_Rejected. by rewrite unlink_stage_run, Hunlink.
Qed.

Lemma chain_tail_completes w translated content :
  fs_writeFile w ("/tmp/" +:+ translated) (output_text content) = None ->
  storage_upload w TARGET_BUCKET ("/tmp/" +:+ translated) translated <> Pending ->
  fs_unlink w ("/tmp/" +:+ translated) = None ->
  chain_tail w translated (Some content)
  = (Fulfilled tt, Some content,
     write_trace translated content
     ++ (upload_trace translated ++ upload_log w translated)
     ++ unlink_trace translated ++ [ConsoleLog "Finished."]).
Proof.
  intros Hwrite Hup Hunlink. unfold chain_tail.
  apply catch_Fulfilled.
  eapply then_Fulfilled; [by rewrite write_stage_run, Hwrite|].
  eapply then_Fulfilled; [by apply upload_stage_settled|].
  eapply then_Fulfilled; [by rewrite unlink_stage_run, Hunlink|].
  reflexivity.
Qed.

Lemma chain_rest_no_data w file_name data :
  truthy data = false ->
  chain_rest w file_name data None
  = (Rejected "Could not read data", None,
     [ConsoleError "Could not read data";
      ConsoleError
        "Failed to download, translate or upload file. Could not read data"]).
Proof.
  intros Hdata. unfold chain_rest.
  change [ConsoleError "Could not read data"; ?e]
    with ([ConsoleError "Could not read data"] ++ [e]).
  eapply catch_Rejected; [|apply report_failure_run].
  apply then_Rejected. by apply translate_stage_no_data.
Qed.

Lemma chain_rest_translation_fails w file_name d batches cause :
  d <> EmptyString ->
  planBatches MAX_SEGMENT_SIZE (filter_sentences (processData d)) = Some batches ->
  Promise_all (translate_time w) (answers_of w batches) = Rejected cause ->
  chain_rest w file_name (Some d) None
  = (Rejected ("One or more translations failed (" +:+ cause +:+ ")"),
     Some (processData d),
     (request_trace d batches
      ++ [ConsoleError ("Translation failed: " +:+ cause)])
     ++ [ConsoleError ("Failed to download, translate or upload file. "
                       +:+ "One or more translations failed (" +:+ cause
                       +:+ ")")]).
Proof.
  intros Hd Hplan Hall. unfold chain_rest.
  eapply catch_Rejected; [|apply report_failure_run].
  apply then_Rejected. by apply translate_stage_Rejected.
Qed.

Lemma chain_rest_translated w file_name d batches results o v t :
  d <> EmptyString ->
  planBatches MAX_SEGMENT_SIZE (filter_sentences (processData d)) = Some batches ->
  Promise_all (translate_time w) (answers_of w batches) = Fulfilled results ->
  chain_tail w (translatedFilename file_name)
    (Some (merge_translations (processData d) (concat_segments results)))
  = (o, v, t) ->
  chain_rest w file_name (Some d) None
  = (o, v,
     (request_trace d batches
      ++ [ConsoleLog "Translations done.";
          ConsoleLog (string_of_nat (length results) +:+ " segments returned")])
     ++ t).
Proof.
  intros Hd Hplan Hall Htail. unfold chain_rest.
  eapply catch_then_prefix; [|exact Htail].
  by apply translate_stage_Fulfilled.
Qed.

(** The loop ends for the batch size of the source. *)
Lemma planBatches_MAX_SEGMENT_SIZE {A} (filtered : list A) :
  exists batches, planBatches MAX_SEGMENT_SIZE filtered = Some batches.
Proof.
  destruct (planBatches_spec filtered MAX_SEGMENT_SIZE) as (bs & Hrun & _);
    [unfold MAX_SEGMENT_SIZE; lia|].
  by exists bs.
Qed.

(** Closes [Forall P] over an explicit list of actions. *)
Ltac each_action := by repeat (apply Forall_cons_2; [done|]).

Lemma Forall_touches_output_request_trace d batches :
  Forall (fun a => touches_output a = false) (request_trace d batches).
Proof.
  unfold request_trace. repeat (apply Forall_cons_2; [reflexivity|]).
  apply Forall_app_2; [|each_action].
  apply Forall_forall. intros a Ha.
  apply list_elem_of_In, in_map_iff in Ha as (b & <- & _). reflexivity.
Qed.

Lemma Forall_touches_output_start_trace event :
  Forall (fun a => touches_output a = false) (start_trace event).
Proof.
  unfold start_trace, event_log.
  repeat case_match; each_action.
Qed.

Lemma Forall_touches_output_event_log event :
  Forall (fun a => touches_output a = false) (event_log event).
Proof.
  unfold event_log.
  repeat case_match; each_action.
Qed.

(** ** The claims about the pipeline *)

(** C6. When the download answers with no data or with empty text, the
    promise is rejected with [Could not read data]; after the download
    the function only logs the two errors: no translation call, no write,
    no upload and no deletion. *)
Theorem unreadable_data_rejects (w : World) (event : Event)
    (data : option string) :
  truthy (name event) = true ->
  storage_download w (bucket event) (template (name event)) = Fulfilled data ->
  truthy data = false ->
  result (translateSRTFiles w event) = Returned (Rejected "Could not read data")
  /\ trace (translateSRTFiles w event)
     = start_trace event
       ++ [ConsoleError "Could not read data";
           ConsoleError
             "Failed to download, translate or upload file. Could not read data"]
  /\ Forall (fun a => is_translate_call a = false /\ touches_output a = false)
            (trace (translateSRTFiles w event)).
Proof.
  intros Hname Hdl Hdata.
  rewrite (run_after_download w event data _ _ _ Hname Hdl
             (chain_rest_no_data w _ data Hdata)).
  simpl. split; [done|]. split; [done|].
  unfold start_trace, event_log. rewrite <- app_assoc.
  repeat case_match; simpl; each_action.
Qed.

(** C4. When one of the batch calls is rejected, the promise returned by
    the function is rejected with a message that contains the error of a
    rejected call, [content.output] still holds the untranslated lines, and
    nothing is written, uploaded or deleted. *)
Theorem failed_batch_fails_pipeline (w : World) (event : Event) (d : string)
    (batches : list (list string)) :
  truthy (name event) = true ->
  storage_download w (bucket event) (template (name event))
  = Fulfilled (Some d) ->
  d <> EmptyString ->
  planBatches MAX_SEGMENT_SIZE (filter_sentences (processData d)) = Some batches ->
  (exists k b err,
      batches !! k = Some b
      /\ translate_translate w k b TARGET_LANGUAGE = Rejected err) ->
  exists k b cause,
    batches !! k = Some b
    /\ translate_translate w k b TARGET_LANGUAGE = Rejected cause
    /\ result (translateSRTFiles w event)
       = Returned (Rejected ("One or more translations failed (" +:+ cause
                             +:+ ")"))
    /\ final_content (translateSRTFiles w event) = Some (processData d)
    /\ output (processData d) = map JStr (split_lines d)
    /\ Forall (fun a => touches_output a = false)
              (trace (translateSRTFiles w event)).
Proof.
  intros Hname Hdl Hd Hplan (k & b & err & Hb & Hcall).
  destruct (Promise_all_Rejected (translate_time w) (answers_of w batches) k err)
    as (j & cause & Hj & Hall).
  { unfold answers_of. by rewrite list_lookup_imap, Hb; simpl; rewrite Hcall. }
  unfold answers_of in Hj. rewrite list_lookup_imap in Hj.
  destruct (batches !! j) as [b'|] eqn:Hb'; [|discriminate].
  injection Hj as Hj.
  exists j, b', cause. split; [done|]. split; [done|].
  rewrite (run_after_download w event (Some d) _ _ _ Hname Hdl
             (chain_rest_translation_fails w _ d batches cause Hd Hplan Hall)).
  cbn [result final_content trace]. split; [done|]. split; [done|].
  split; [apply processData_output|].
  unfold start_trace.
  apply Forall_app_2; [apply Forall_app_2|apply Forall_app_2;
                                           [apply Forall_app_2|]];
    try (each_action).
  - apply Forall_touches_output_event_log.
  - apply Forall_touches_output_request_trace.
Qed.

(** C7. After a successful translation: a failing local write rejects the
    promise with its error; a failing deletion rejects it with its error;
    a failing upload is logged, the deletion is still attempted and, when
    it succeeds, the promise is fulfilled and the function logs
    [Finished.]. *)
Theorem upload_failure_is_only_logged (w : World) (event : Event) (d : string)
    (batches : list (list string)) (results : list (list jsval)) :
  truthy (name event) = true ->
  storage_download w (bucket event) (template (name event))
  = Fulfilled (Some d) ->
  d <> EmptyString ->
  planBatches MAX_SEGMENT_SIZE (filter_sentences (processData d)) = Some batches ->
  Promise_all (translate_time w) (answers_of w batches) = Fulfilled results ->
  let translated := translatedFilename (template (name event)) in
  let localFilename := "/tmp/" +:+ translated in
  let merged := merge_translations (processData d) (concat_segments results) in
  let run := translateSRTFiles w event in
  (forall err,
      fs_writeFile w localFilename (output_text merged) = Some err ->
      result run = Returned (Rejected err)
      /\ Forall (fun a => a <> Upload TARGET_BUCKET localFilename translated
                          /\ a <> Unlink localFilename) (trace run))
  /\ (forall err,
        fs_writeFile w localFilename (output_text merged) = None ->
        storage_upload w TARGET_BUCKET localFilename translated <> Pending ->
        fs_unlink w localFilename = Some err ->
        result run = Returned (Rejected err))
  /\ (forall upload_err,
        fs_writeFile w localFilename (output_text merged) = None ->
        storage_upload w TARGET_BUCKET localFilename translated
        = Rejected upload_err ->
        In (ConsoleError ("Error uploading translated file to bucket: "
                          +:+ upload_err)) (trace run)
        /\ In (Unlink localFilename) (trace run)
        /\ (fs_unlink w localFilename = None ->
            result run = Returned (Fulfilled tt)
            /\ In (ConsoleLog "Finished.") (trace run))).
Proof.
  intros Hname Hdl Hd Hplan Hall translated localFilename merged run.
  assert (forall o v t,
     chain_tail w translated (Some merged) = (o, v, t) ->
     result run = Returned o
     /\ forall a, In a t -> In a (trace run)) as Hrun.
  { intros o v t Htail. subst run.
    rewrite (run_after_download w event (Some d) _ _ _ Hname Hdl
               (chain_rest_translated w _ d batches results _ _ _
                  Hd Hplan Hall Htail)).
    cbn [result trace]. split; [done|]. intros a Ha.
    apply in_or_app. right. apply in_or_app. by right. }
  split; [|split].
  - intros err Hwrite.
    pose proof (chain_tail_write_fails w translated merged err Hwrite) as Htail.
    split; [by apply (Hrun _ _ _ Htail)|].
    subst run.
    rewrite (run_after_download w event (Some d) _ _ _ Hname Hdl
               (chain_rest_translated w _ d batches results _ _ _
                  Hd Hplan Hall Htail)).
    cbn [trace].
    apply Forall_app_2; [|apply Forall_app_2; [apply Forall_app_2|]];
      try (each_action).
    + eapply Forall_impl; [apply Forall_touches_output_start_trace|].
      intros a Ha. by destruct a.
    + eapply Forall_impl; [apply Forall_touches_output_request_trace|].
      intros a Ha. by destruct a.
  - intros err Hwrite Hup Hunlink.
    by apply (Hrun _ _ _
                (chain_tail_unlink_fails w translated merged err
                   Hwrite Hup Hunlink)).
  - intros upload_err Hwrite Hup.
    assert (storage_upload w TARGET_BUCKET localFilename translated <> Pending)
      as Hsettled by (by rewrite Hup).
    assert (upload_log w translated
            = [ConsoleError ("Error uploading translated file to bucket: "
                             +:+ upload_err)]) as Hlog.
    { unfold upload_log. fold localFilename. by rewrite Hup. }
    destruct (fs_unlink w localFilename) as [err|] eqn:Hunlink.
    + destruct (Hrun _ _ _
                  (chain_tail_unlink_fails w translated merged err
                     Hwrite Hsettled Hunlink)) as [_ Hin].
      rewrite Hlog in Hin.
      split; [|split; [|done]]; apply Hin; simpl; tauto.
    + destruct (Hrun _ _ _
                  (chain_tail_completes w translated merged
                     Hwrite Hsettled Hunlink)) as [Hres Hin].
      rewrite Hlog in Hin.
      split; [|split; [|intros _; split; [done|]]]; apply Hin; simpl; tauto.
Qed.

Lemma chain_starts_with_download w bucket_name file_name :
  exists o v t,
    chain w bucket_name file_name None
    = (o, v, Download bucket_name file_name :: t).
Proof.
  destruct (storage_download w bucket_name file_name) as [data|err|] eqn:Hdl.
  - destruct (chain_rest w file_name data None) as [[o v] t] eqn:Hrest.
    exists o, v, t. by apply (chain_after_download w _ _ data).
  - exists (Rejected err), None,
      [ConsoleError ("Failed to download, translate or upload file. " +:+ err)].
    unfold chain.
    change (Download bucket_name file_name :: ?t)
      with (([Download bucket_name file_name] ++ []) ++ t).
    eapply catch_Rejected; [|reflexivity].
    apply then_Rejected. unfold then_, perform, settle. by rewrite Hdl.
  - exists Pending, None, []. unfold chain, catch_, then_, perform, settle.
    by rewrite Hdl.
Qed.

(** Every event with a name is downloaded, whatever its [resourceState]. *)
Lemma named_event_downloads w event :
  truthy (name event) = true ->
  exists o v t,
    translateSRTFiles w event
    = mkRun (Returned o) v (start_trace event ++ t).
Proof.
  intros Hname.
  destruct (chain_starts_with_download w (bucket event) (template (name event)))
    as (o & v & t & Hchain).
  exists o, v, t. by apply translateSRTFiles_run.
Qed.

(** C2 fails on the code. For the deletion event the function logs that it
    is a deletion event and then goes on: it logs that it processes the
    file and downloads it, whatever the collaborators answer. *)
Theorem deletion_event_is_processed (w : World) :
  exists rest,
    trace (translateSRTFiles w deletion_event)
    = ConsoleLog "This is a deletion event."
      :: ConsoleLog "Processing new text file: sample-en.txt (text/plain)"
      :: Download "cclabs-translate" "sample-en.txt"
      :: rest.
Proof.
  destruct (named_event_downloads w deletion_event eq_refl) as (o & v & t & ->).
  by exists t.
Qed.

(** *** Concrete runs *)

(** Scenario A through the whole function: the translated text is written
    to the local file, uploaded under the new name and deleted. *)
Example scenario_A_run :
  translateSRTFiles (test_world (Some scenario_A) Hallo_backend (Fulfilled tt))
                    sample_event
  = mkRun (Returned (Fulfilled tt))
      (Some (mkContent
               ["1"; "00:00:01,000 --> 00:00:02,000"; "Hello"; ""; ""]
               [2]
               [JStr "1"; JStr "00:00:01,000 --> 00:00:02,000"; JStr "Hallo";
                JStr ""; JStr ""]))
      [ConsoleLog "Processing new text file: sample-en.txt (text/plain)";
       Download "cclabs-translate" "sample-en.txt";
       ConsoleLog "Lines read: 5";
       ConsoleLog "1 lines of text need translation";
       ConsoleLog "Batch size: 128";
       Translate ["Hello"] "nl";
       ConsoleLog "Performing 1 translation requests";
       ConsoleLog "Translations done.";
       ConsoleLog "1 segments returned";
       ConsoleLog "Writing translated file locally to /tmp/sample-nl.txt.";
       WriteFile "/tmp/sample-nl.txt"
         (String.concat NL
            ["1"; "00:00:01,000 --> 00:00:02,000"; "Hallo"; ""; ""]);
       ConsoleLog
         "Uploading local file sample-nl.txt to bucket cclabs-translate-target";
       Upload "cclabs-translate-target" "/tmp/sample-nl.txt" "sample-nl.txt";
       ConsoleLog "/tmp/sample-nl.txt uploaded to cclabs-translate-target";
       ConsoleLog "Deleting local file /tmp/sample-nl.txt";
       Unlink "/tmp/sample-nl.txt";
       ConsoleLog "Finished."].
Proof. vm_compute. reflexivity. Qed.

Lemma unreadable_data_rejects_witness :
  result (translateSRTFiles (test_world (Some "") Hallo_backend (Fulfilled tt))
                            sample_event)
  = Returned (Rejected "Could not read data").
Proof.
  apply (unreadable_data_rejects
           (test_world (Some "") Hallo_backend (Fulfilled tt))
           sample_event (Some "")); reflexivity.
Defined.

Lemma failed_batch_fails_pipeline_witness :
  result (translateSRTFiles
            (test_world (Some long_text) quota_backend (Fulfilled tt))
            sample_event)
  = Returned (Rejected "One or more translations failed (quota)").
Proof.
  destruct (failed_batch_fails_pipeline
              (test_world (Some long_text) quota_backend (Fulfilled tt))
              sample_event long_text [repeat "Hello" 128; ["Hello"]])
    as (k & b & cause & _ & Hcall & Hresult & _).
  - reflexivity.
  - reflexivity.
  - discriminate.
  - vm_compute. reflexivity.
  - exists 1, ["Hello"], "quota". split; reflexivity.
  - rewrite Hresult.
    change (quota_backend k b = Rejected cause) in Hcall.
    unfold quota_backend in Hcall.
    destruct (k =? 1); [|discriminate]. by injection Hcall as <-.
Defined.

Lemma upload_failure_is_only_logged_witness :
  result (translateSRTFiles
            (test_world (Some scenario_A) Hallo_backend (Rejected "403"))
            sample_event)
  = Returned (Fulfilled tt)
  /\ In (Unlink "/tmp/sample-nl.txt")
        (trace (translateSRTFiles
                  (test_world (Some scenario_A) Hallo_backend (Rejected "403"))
                  sample_event)).
Proof.
  destruct (upload_failure_is_only_logged
              (test_world (Some scenario_A) Hallo_backend (Rejected "403"))
              sample_event scenario_A [["Hello"]] [[JStr "Hallo"]])
    as (_ & _ & Hupload).
  - reflexivity.
  - reflexivity.
  - discriminate.
  - vm_compute. reflexivity.
  - vm_compute. reflexivity.
  - destruct (Hupload "403" eq_refl eq_refl) as (_ & Hunlink & Hdone).
    split; [exact (proj1 (Hdone eq_refl)) | exact Hunlink].
Defined.

(** ** The output filename *)

Lemma js_replace_unfold s pattern replacement :
  js_replace s pattern replacement
  = if String.prefix pattern s then
      replacement +:+ string_drop (String.length pattern) s
    else
      match s with
      | EmptyString => EmptyString
      | String c s' => String c (js_replace s' pattern replacement)
      end.
Proof. by destruct s. Qed.

Lemma prefix_append pattern : forall post,
  String.prefix pattern (pattern +:+ post) = true.
Proof.
  induction pattern as [|c pattern IH]; intros post; simpl.
  - by destruct post.
  - by destruct (ascii_dec c c).
Qed.

Lemma prefix_true pattern : forall s,
  String.prefix pattern s = true -> exists post, s = pattern +:+ post.
Proof.
  induction pattern as [|c pattern IH]; intros s.
  - intros _. by exists s.
  - destruct s as [|c' s]; simpl; [discriminate|].
    destruct (ascii_dec c c') as [<-|]; [|discriminate].
    intros Hp. destruct (IH s Hp) as [post ->]. by exists post.
Qed.

Lemma string_drop_append pattern : forall post,
  string_drop (String.length pattern) (pattern +:+ post) = post.
Proof.
  induction pattern as [|c pattern IH]; intros post; simpl; [|by apply IH].
  by destruct post.
Qed.

(** [replace] rewrites the leftmost occurrence of the pattern. *)
Lemma js_replace_leftmost pattern replacement pre : forall s post,
  s = pre +:+ pattern +:+ post ->
  (forall pre' post',
      s = pre' +:+ pattern +:+ post' -> String.length pre <= String.length pre') ->
  js_replace s pattern replacement = pre +:+ replacement +:+ post.
Proof.
  induction pre as [|c pre IH]; intros s post -> Hmin.
  - change (js_replace (pattern +:+ post) pattern replacement
            = replacement +:+ post).
    by rewrite js_replace_unfold, prefix_append, string_drop_append.
  - change (js_replace (String c (pre +:+ pattern +:+ post)) pattern replacement
            = String c (pre +:+ replacement +:+ post)).
    rewrite js_replace_unfold.
    destruct (String.prefix pattern (String c (pre +:+ pattern +:+ post)))
      eqn:Hp.
    + destruct (prefix_true _ _ Hp) as [post' Hs].
      specialize (Hmin EmptyString post' Hs). simpl in Hmin. lia.
    + f_equal. apply IH; [done|].
      intros pre' post' Hs.
      pose proof (Hmin (String c pre') post' (f_equal (String c) Hs)) as Hle.
      simpl in Hle. lia.
Qed.

(** Without an occurrence nothing changes. *)
Lemma js_replace_absent pattern replacement : forall s,
  (forall pre post, s <> pre +:+ pattern +:+ post) ->
  js_replace s pattern replacement = s.
Proof.
  induction s as [|c s IH]; intros Habsent; rewrite js_replace_unfold.
  - destruct (String.prefix pattern EmptyString) eqn:Hp; [|done].
    destruct (prefix_true _ _ Hp) as [post Hs].
    by destruct (Habsent EmptyString post).
  - destruct (String.prefix pattern (String c s)) eqn:Hp.
    + destruct (prefix_true _ _ Hp) as [post Hs].
      by destruct (Habsent EmptyString post).
    + f_equal. apply IH. intros pre post ->.
      by apply (Habsent (String c pre) post).
Qed.

(** C8 as stated fails: in a name where the token [-en] also occurs before
    the language suffix, the earlier occurrence is replaced and the suffix
    stays. *)
Lemma suffix_token_not_replaced :
  translatedFilename "a-en-en.txt" = "a-nl-en.txt"
  /\ translatedFilename "a-en-en.txt" <> "a-en-nl.txt".
Proof.
  split; [reflexivity|]. intros H. vm_compute in H. discriminate H.
Qed.

(** C8, amended. The output filename is the base name of the input
    filename with the leftmost occurrence of [-en] replaced by [-nl], and
    the base name itself when [-en] does not occur in it; [sample-en.txt]
    becomes [sample-nl.txt]. *)
Theorem translatedFilename_leftmost (file_name : string) :
  (forall pre post,
      path_base file_name = pre +:+ "-en" +:+ post ->
      (forall pre' post',
          path_base file_name = pre' +:+ "-en" +:+ post' ->
          String.length pre <= String.length pre') ->
      translatedFilename file_name = pre +:+ "-nl" +:+ post)
  /\ ((forall pre post, path_base file_name <> pre +:+ "-en" +:+ post) ->
      translatedFilename file_name = path_base file_name)
  /\ translatedFilename "sample-en.txt" = "sample-nl.txt".
Proof.
  split; [|split; [|reflexivity]].
  - intros pre post Hbase Hmin. by apply js_replace_leftmost.
  - intros Habsent. by apply js_replace_absent.
Qed.

Lemma translatedFilename_leftmost_witness :
  translatedFilename "subs/sample-en.txt" = "sample-nl.txt".
Proof.
  destruct (translatedFilename_leftmost "subs/sample-en.txt") as (Hleft & _ & _).
  apply (Hleft "sample" ".txt"); [reflexivity|].
  intros pre' post' Hbase.
  change (path_base "subs/sample-en.txt") with "sample-en.txt" in Hbase.
  do 6 (destruct pre' as [|? pre']; [discriminate Hbase|]).
  simpl. lia.
Defined.

(** * Further properties of the code *)

(** ** Classification of lines *)

Lemma plus_digit_exec s :
  plus_exec Digit (regex_exec []) s
  = if bool_decide (s <> EmptyString)
       && forallb is_digit (list_ascii_of_string s)
    then Some s else None.
Proof.
  induction s as [|c s IH]; [done|].
  cbn [plus_exec atom_matches list_ascii_of_string forallb].
  rewrite bool_decide_eq_true_2 by done. cbn [andb].
  destruct (is_digit c); [|done]. cbn [andb].
  rewrite IH. destruct s as [|c' s]; [done|].
  rewrite bool_decide_eq_true_2 by done. cbn [andb].
  by destruct (forallb is_digit (list_ascii_of_string (String c' s))).
Qed.

(** X1. A line matches [/^\d+$/] exactly when it is not empty and all its
    characters are decimal digits; the match is then the whole line. *)
Theorem index_line_iff_digits (s : string) :
  js_match s REGEX_INDEX_LINE
  = if bool_decide (s <> EmptyString)
       && forallb is_digit (list_ascii_of_string s)
    then Some s else None.
Proof.
  unfold js_match. cbn [REGEX_INDEX_LINE regex_exec]. apply plus_digit_exec.
Qed.

Lemma once_exec_shape (atoms : list atom) : forall s,
  is_Some (regex_exec (map Once atoms) s)
  <-> Forall2 (fun a c => atom_matches a c = true) atoms
              (list_ascii_of_string s).
Proof.
  induction atoms as [|a atoms IH]; intros s; simpl.
  - destruct s; simpl; split.
    + intros _. constructor.
    + by eexists.
    + by intros [? ?].
    + intros H. inversion H.
  - destruct s as [|c s]; simpl.
    + split; [by intros [? ?] | intros H; inversion H].
    + destruct (atom_matches a c) eqn:Ha.
      * split.
        -- intros [m Hm]. constructor; [done|]. apply IH.
           destruct (regex_exec (map Once atoms) s); [by eexists|done].
        -- intros H. inversion H as [|? ? ? ? _ Hrest]; subst.
           apply IH in Hrest as [m Hm]. rewrite Hm. by eexists.
      * split; [by intros [? ?]|].
        intros H. inversion H; subst. congruence.
Qed.

Lemma REGEX_TIMESTAMP_LINE_shape :
  REGEX_TIMESTAMP_LINE = map Once timestamp_shape.
Proof. reflexivity. Qed.

Lemma length_list_ascii_of_string s :
  length (list_ascii_of_string s) = String.length s.
Proof. induction s; simpl; by f_equal. Qed.

Lemma timestamp_exec_shape (s : string) :
  is_Some (js_match s REGEX_TIMESTAMP_LINE)
  <-> Forall2 (fun a c => atom_matches a c = true) timestamp_shape
              (list_ascii_of_string s).
Proof.
  unfold js_match. rewrite REGEX_TIMESTAMP_LINE_shape. apply once_exec_shape.
Qed.

(** X2. A line matches the timestamp expression exactly when it has the 29
    characters [dd:dd:dd,ddd --> dd:dd:dd,ddd], each [d] a decimal digit. *)
Theorem timestamp_line_iff_shape (s : string) :
  (is_Some (js_match s REGEX_TIMESTAMP_LINE)
   <-> Forall2 (fun a c => atom_matches a c = true) timestamp_shape
               (list_ascii_of_string s))
  /\ (is_Some (js_match s REGEX_TIMESTAMP_LINE) -> String.length s = 29).
Proof.
  split; [apply timestamp_exec_shape|].
  intros Hm. apply timestamp_exec_shape, Forall2_length in Hm.
  by rewrite <- length_list_ascii_of_string, <- Hm.
Qed.

Lemma timestamp_line_iff_shape_witness :
  String.length "00:00:01,000 --> 00:00:02,000" = 29.
Proof.
  apply (proj2 (timestamp_line_iff_shape "00:00:01,000 --> 00:00:02,000")).
  vm_compute. by eexists.
Defined.

(** X3. No line is both an index line and a timestamp line, and the empty
    line is neither: the three tests of [processData] and of the filter
    exclude one another, whatever their order. *)
Theorem line_tests_exclusive (s : string) :
  (js_match s REGEX_INDEX_LINE = None
   \/ js_match s REGEX_TIMESTAMP_LINE = None)
  /\ js_match EmptyString REGEX_INDEX_LINE = None
  /\ js_match EmptyString REGEX_TIMESTAMP_LINE = None.
Proof.
  split; [|by split].
  unfold js_match at 1. cbn [REGEX_INDEX_LINE regex_exec].
  rewrite plus_digit_exec.
  destruct (js_match s REGEX_TIMESTAMP_LINE) as [m|] eqn:Hts; [|by right].
  left.
  assert (is_Some (js_match s REGEX_TIMESTAMP_LINE)) as Hsome by (by eexists).
  apply timestamp_exec_shape in Hsome.
  pose proof (Forall2_length _ _ _ Hsome) as Hlen.
  destruct (list_ascii_of_string s) as [|c1 [|c2 [|c3 chars]]] eqn:Hchars;
    try discriminate Hlen.
  cbv [timestamp_shape app] in Hsome.
  apply Forall2_cons in Hsome as [_ Hsome].
  apply Forall2_cons in Hsome as [_ Hsome].
  apply Forall2_cons in Hsome as [Hcolon _].
  simpl in Hcolon. apply bool_decide_eq_true_1 in Hcolon as ->.
  simpl. by rewrite !andb_false_r.
Qed.

Lemma plus_exec_chars a r k s m :
  (forall s' m', k s' = Some m' ->
     Forall (fun c => Exists (fun it => item_matches it c = true) r)
            (list_ascii_of_string s')) ->
  plus_exec a k s = Some m ->
  Forall (fun c => Exists (fun it => item_matches it c = true) (Plus a :: r))
         (list_ascii_of_string s).
Proof.
  intros Hk. revert m.
  induction s as [|c s IH]; intros m; simpl; [discriminate|].
  destruct (atom_matches a c) eqn:Ha; [|discriminate].
  intros Hm. constructor; [by apply Exists_cons_hd|].
  destruct (plus_exec a k s) as [m1|] eqn:E1; [by eapply IH|].
  destruct (k s) as [m2|] eqn:E2; [|discriminate].
  eapply Forall_impl; [by eapply Hk|].
  intros c' Hc'. by apply Exists_cons_tl.
Qed.

(** Every character of a matching line is accepted by an item of the
    expression. *)
Lemma regex_exec_chars r : forall s m,
  regex_exec r s = Some m ->
  Forall (fun c => Exists (fun it => item_matches it c = true) r)
         (list_ascii_of_string s).
Proof.
  induction r as [|[a|a] r IH]; intros s m; simpl.
  - destruct s; [constructor | discriminate].
  - destruct s as [|c s]; [discriminate|].
    destruct (atom_matches a c) eqn:Ha; [|discriminate].
    destruct (regex_exec r s) as [m1|] eqn:E; [|discriminate].
    intros _. simpl. constructor; [by apply Exists_cons_hd|].
    eapply Forall_impl; [by eapply IH|].
    intros c' Hc'. by apply Exists_cons_tl.
  - apply plus_exec_chars. exact IH.
Qed.

Lemma timestamp_items_alphabet c :
  Exists (fun it => item_matches it c = true) REGEX_TIMESTAMP_LINE ->
  is_digit c = true \/ In c timestamp_punctuation.
Proof.
  rewrite REGEX_TIMESTAMP_LINE_shape. intros Hex.
  apply Exists_exists in Hex as (it & Hin & Hit).
  apply list_elem_of_In, in_map_iff in Hin as (a & <- & Ha).
  simpl in Hit, Ha.
  repeat (destruct Ha as [<-|Ha];
          [simpl in Hit;
           first [by left
                 | apply bool_decide_eq_true_1 in Hit as ->;
                   right; simpl; tauto]|]).
  done.
Qed.

(** X4. A line that contains a character other than a decimal digit and
    the punctuation of a timestamp (colon, comma, space, hyphen, greater
    than) fails both expressions and is sent for translation: a letter or a
    carriage return anywhere is enough. *)
Theorem foreign_character_needs_translation (line : string) (c : ascii) :
  In c (list_ascii_of_string line) ->
  is_digit c = false ->
  ~ In c timestamp_punctuation ->
  needs_translation line = true.
Proof.
  intros Hin Hdigit Hpunct. unfold needs_translation.
  apply list_elem_of_In in Hin.
  assert (js_match line REGEX_INDEX_LINE = None) as ->.
  { destruct (js_match line REGEX_INDEX_LINE) as [m|] eqn:E; [|done].
    pose proof (regex_exec_chars _ _ _ E) as Hall.
    pose proof (proj1 (Forall_forall _ _) Hall c Hin) as Hex.
    apply Exists_cons in Hex as [Hc|Hnil]; [|by inversion Hnil].
    simpl in Hc. congruence. }
  assert (js_match line REGEX_TIMESTAMP_LINE = None) as ->.
  { destruct (js_match line REGEX_TIMESTAMP_LINE) as [m|] eqn:E; [|done].
    pose proof (regex_exec_chars _ _ _ E) as Hall.
    pose proof (proj1 (Forall_forall _ _) Hall c Hin) as Hex.
    destruct (timestamp_items_alphabet c Hex); [congruence|done]. }
  rewrite !(bool_decide_eq_false_2 (is_Some (@None string)))
    by (by intros [? ?]).
  rewrite bool_decide_eq_false_2; [done|].
  intros ->. by inversion Hin.
Qed.

Lemma foreign_character_needs_translation_witness :
  needs_translation ("1" +:+ String "013" EmptyString) = true.
Proof.
  apply (foreign_character_needs_translation _ "013"%char).
  - simpl. tauto.
  - reflexivity.
  - simpl. intros H. repeat (destruct H as [H|H]; [discriminate H|]). done.
Defined.

(** ** processData and the merge *)

Lemma length_split_on_LF s : length (split_on LF s) = S (count_LF s).
Proof.
  induction s as [|c s IH]; simpl; [done|].
  pose proof (split_on_nonempty LF s) as Hne.
  case_bool_decide; simpl; [by rewrite IH|].
  destruct (split_on LF s) as [|seg segs]; [done|]. exact IH.
Qed.

(** X5. [processData] keeps one sentence and one output entry per line of
    the text: one more than the number of line feeds, so never none, and
    both arrays have this length. *)
Theorem processData_line_count (data : string) :
  length (sentences (processData data)) = S (count_LF data)
  /\ length (output (processData data)) = S (count_LF data).
Proof.
  rewrite processData_sentences, processData_output, length_map.
  unfold split_lines. by rewrite length_split_on_LF.
Qed.

(** X6. The merge puts the [i]-th translation at the position of the [i]-th
    line that needs translation, for every [i]. *)
Theorem merge_puts_translation_in_place (data : string)
    (translations : list jsval) (i position : nat) :
  requestLines (processData data) !! i = Some position ->
  output (merge_translations (processData data) translations) !! position
  = Some (js_get translations i).
Proof.
  rewrite processData_requestLines, merge_translations_output.
  intros Hpos.
  pose proof (reconstitute_text _ translations _ _ _ Hpos) as Hget.
  by rewrite Nat.sub_0_r in Hget.
Qed.

Lemma merge_puts_translation_in_place_witness :
  output (merge_translations
            (processData ("1" +:+ NL +:+ "Hello" +:+ NL +:+ "world"))
            [JStr "Hallo"; JStr "wereld"]) !! 2
  = Some (JStr "wereld").
Proof.
  apply (merge_puts_translation_in_place
           ("1" +:+ NL +:+ "Hello" +:+ NL +:+ "world")
           [JStr "Hallo"; JStr "wereld"] 1 2).
  reflexivity.
Defined.

Lemma length_text_positions lines : forall k,
  length (text_positions k lines)
  = length (List.filter needs_translation lines).
Proof.
  induction lines as [|element rest IH]; intros k; simpl; [done|].
  destruct (needs_translation element); simpl; by rewrite IH.
Qed.

Lemma reconstitute_surplus lines : forall translations surplus,
  length (List.filter needs_translation lines) <= length translations ->
  reconstitute lines (translations ++ surplus)
  = reconstitute lines translations.
Proof.
  induction lines as [|element rest IH]; intros translations surplus Hlen;
    simpl in *; [done|].
  destruct (needs_translation element); simpl in *.
  - destruct translations as [|t translations]; simpl in *; [lia|].
    rewrite !drop_0. f_equal. apply IH. lia.
  - f_equal. by apply IH.
Qed.

(** X7. Translations beyond the number of lines that need one are ignored:
    with at least as many translations as [requestLines], appending more
    changes nothing. *)
Theorem surplus_translations_ignored (data : string)
    (translations surplus : list jsval) :
  length (requestLines (processData data)) <= length translations ->
  merge_translations (processData data) (translations ++ surplus)
  = merge_translations (processData data) translations.
Proof.
  intros Hlen.
  rewrite processData_requestLines, length_text_positions in Hlen.
  pose proof (merge_translations_output data (translations ++ surplus)) as H1.
  pose proof (merge_translations_output data translations) as H2.
  rewrite reconstitute_surplus in H1 by done.
  unfold merge_translations in *. simpl in *. by rewrite H1, H2.
Qed.

Lemma surplus_translations_ignored_witness :
  merge_translations (processData "Hello") [JStr "Hallo"; JStr "wereld"]
  = merge_translations (processData "Hello") [JStr "Hallo"].
Proof.
  apply (surplus_translations_ignored "Hello" [JStr "Hallo"] [JStr "wereld"]).
  vm_compute. lia.
Defined.

Lemma reconstitute_linewise (f : string -> string) lines :
  reconstitute lines (map (fun s => JStr (f s))
                          (List.filter needs_translation lines))
  = map (fun line => JStr (if needs_translation line then f line else line))
        lines.
Proof.
  induction lines as [|element rest IH]; simpl; [done|].
  destruct (needs_translation element) eqn:E; simpl.
  - rewrite drop_0. by rewrite IH.
  - by rewrite IH.
Qed.

(** X8. When the translations are the images of the filtered sentences
    under a function on lines, in order, the merged output is the input
    with that function applied to the lines that need translation and to
    no other line. *)
Theorem merge_linewise (f : string -> string) (data : string) :
  output (merge_translations (processData data)
            (map (fun s => JStr (f s)) (filter_sentences (processData data))))
  = map (fun line => JStr (if needs_translation line then f line else line))
        (split_lines data).
Proof.
  rewrite merge_translations_output. unfold filter_sentences.
  rewrite processData_sentences. apply reconstitute_linewise.
Qed.

(** ** The batch loop, further *)

Lemma batch_loop_count {A} (filtered : list A) (maxSize : Z) (fuel : nat) :
  (1 <= maxSize)%Z ->
  forall (i : Z) (promises : list (list A)),
  (0 <= i)%Z -> (Z.of_nat (length filtered) - i <= Z.of_nat fuel)%Z ->
  exists batches,
    batch_loop fuel maxSize filtered i promises = Some (promises ++ batches)
    /\ Z.of_nat (length batches)
       = Z.max 0 ((Z.of_nat (length filtered) - i + maxSize - 1) / maxSize)
    /\ Forall (fun b => b <> []) batches.
Proof.
  intros Hmax. set (len := Z.of_nat (length filtered)).
  induction fuel as [|fuel IH]; intros i promises Hi Hfuel; simpl; fold len.
  - destruct (Z.ltb_spec i len); [lia|].
    exists []. rewrite app_nil_r. split; [done|]. split; [|constructor].
    assert ((len - i + maxSize - 1) / maxSize <= 0)%Z; [|simpl; lia].
    apply Z.lt_succ_r, Z.div_lt_upper_bound; lia.
  - destruct (Z.ltb_spec i len) as [Hlt|Hge].
    + match goal with
      | |- context [js_slice ?arr ?from ?to] => set (b := js_slice arr from to)
      end.
      destruct (IH (i + maxSize)%Z (push promises b))
        as (bs & Hrun & Hcount & Hne); [lia | lia |].
      exists (b :: bs).
      rewrite Hrun. unfold push. rewrite <- app_assoc. simpl.
      split; [done|].
      assert (Z.of_nat (length b) = Z.min len (i + maxSize) - i)%Z as Hlen.
      { subst b. rewrite (js_slice_inside filtered) by (fold len; lia).
        rewrite length_take, length_drop. fold len. lia. }
      split.
      * rewrite Nat2Z.inj_succ, Hcount.
        replace (len - (i + maxSize) + maxSize - 1)%Z
          with ((len - i + maxSize - 1) + (-1) * maxSize)%Z by lia.
        rewrite Z.div_add by lia.
        assert (1 <= (len - i + maxSize - 1) / maxSize)%Z; [|lia].
        apply Z.div_le_lower_bound; lia.
      * constructor; [|done]. intros ->. simpl in Hlen. lia.
    + exists []. rewrite app_nil_r. split; [done|]. split; [|constructor].
      assert ((len - i + maxSize - 1) / maxSize <= 0)%Z; [|simpl; lia].
      apply Z.lt_succ_r, Z.div_lt_upper_bound; lia.
Qed.

(** X9. For a batch size of at least one, the loop issues as many requests
    as the number of lines divided by the batch size, rounded up, and no
    request is empty; without lines it issues none. (The 2510 lines of the
    sample run of the README give 20 requests.) *)
Theorem planBatches_count {A} (filtered : list A) (maxSize : Z) :
  (1 <= maxSize)%Z ->
  exists batches,
    planBatches maxSize filtered = Some batches
    /\ Z.of_nat (length batches)
       = ((Z.of_nat (length filtered) + maxSize - 1) / maxSize)%Z
    /\ Forall (fun b => b <> []) batches.
Proof.
  intros Hmax.
  destruct (batch_loop_count filtered maxSize (length filtered) Hmax 0 [])
    as (bs & Hrun & Hcount & Hne); [lia | lia |].
  exists bs. split; [done|]. split; [|done].
  rewrite Hcount, Z.sub_0_r.
  apply Z.max_r, Z.div_pos; lia.
Qed.

Lemma planBatches_count_witness :
  exists batches,
    planBatches MAX_SEGMENT_SIZE (repeat "Hello" 2510) = Some batches
    /\ length batches = 20.
Proof.
  destruct (planBatches_count (repeat "Hello" 2510) MAX_SEGMENT_SIZE)
    as (bs & Hrun & Hcount & _).
  - unfold MAX_SEGMENT_SIZE. lia.
  - exists bs. split; [exact Hrun|].
    apply Nat2Z.inj. rewrite Hcount. reflexivity.
Defined.

Lemma batch_loop_diverges {A} (filtered : list A) (maxSize : Z) (fuel : nat) :
  (maxSize <= 0)%Z -> filtered <> [] ->
  forall (i : Z) (promises : list (list A)),
  (i <= 0)%Z -> batch_loop fuel maxSize filtered i promises = None.
Proof.
  intros Hmax Hne.
  assert (0 < Z.of_nat (length filtered))%Z as Hlen.
  { destruct filtered; [done | simpl; lia]. }
  induction fuel as [|fuel IH]; intros i promises Hi; simpl;
    (destruct (Z.ltb_spec i (Z.of_nat (length filtered))); [|lia]);
    [done|].
  apply IH. lia.
Qed.

(** X10. With a batch size of zero or less and at least one line, the loop
    never ends: it runs out of every amount of fuel. *)
Theorem batch_loop_never_ends {A} (filtered : list A) (maxSize : Z) :
  (maxSize <= 0)%Z -> filtered <> [] ->
  forall fuel, batch_loop fuel maxSize filtered 0 [] = None.
Proof.
  intros Hmax Hne fuel. by apply batch_loop_diverges.
Qed.

Lemma batch_loop_never_ends_witness :
  batch_loop 1000 0 ["Hello"] 0 [] = None.
Proof.
  apply (batch_loop_never_ends ["Hello"] 0); [lia | discriminate].
Defined.

(** ** Traces of the chain *)

Lemma then_trace_Forall {A B} (P : Action -> Prop) (p : Promise A)
    (f : A -> Promise B) v :
  Forall P (p v).2 -> (forall a v', Forall P (f a v').2) ->
  Forall P (then_ p f v).2.
Proof.
  intros Hp Hf. unfold then_.
  destruct (p v) as [[[a|err|] v'] t]; simpl in *; try done.
  specialize (Hf a v'). destruct (f a v') as [[o v''] t']. simpl in *.
  by apply Forall_app_2.
Qed.

Lemma catch_trace_Forall {A} (P : Action -> Prop) (p : Promise A)
    (h : string -> Promise A) v :
  Forall P (p v).2 -> (forall err v', Forall P (h err v').2) ->
  Forall P (catch_ p h v).2.
Proof.
  intros Hp Hh. unfold catch_.
  destruct (p v) as [[[a|err|] v'] t]; simpl in *; try done.
  specialize (Hh err v'). destruct (h err v') as [[o v''] t']. simpl in *.
  by apply Forall_app_2.
Qed.

Lemma perform_trace_Forall (P : Action -> Prop) a v :
  P a -> Forall P (perform a v).2.
Proof. intros Ha. simpl. by apply Forall_cons_2. Qed.

(** One step through a chain whose actions all satisfy [P]. *)
Ltac trace_step :=
  first [ apply then_trace_Forall; [|intros ? ?]
        | apply catch_trace_Forall; [|intros ? ?]
        | apply perform_trace_Forall
        | apply Forall_nil_2 ].

Section Traces.
Variable P : Action -> Prop.
Hypothesis P_log : forall m, P (ConsoleLog m).
Hypothesis P_error : forall m, P (ConsoleError m).

Lemma report_failure_trace err v : Forall P (report_failure err v).2.
Proof. unfold report_failure. repeat trace_step; auto. Qed.

Lemma translate_stage_trace w data v :
  (forall b, P (Translate b TARGET_LANGUAGE)) ->
  Forall P (translate_stage w data v).2.
Proof.
  intros P_translate. unfold translate_stage.
  destruct (truthy data); [|repeat trace_step; auto].
  do 4 (trace_step; [repeat trace_step; auto|]).
  destruct (planBatches _ _) as [batches|]; [|apply Forall_nil_2].
  cbn [dispatch].
  trace_step.
  { simpl. apply Forall_forall. intros act Hact.
    apply list_elem_of_In, in_map_iff in Hact as (b & <- & _). auto. }
  trace_step; [trace_step; auto|].
  trace_step; [|repeat trace_step; auto].
  trace_step; [apply Forall_nil_2|].
  unfold merge_results. repeat (trace_step; auto).
  match goal with |- context [match ?c with _ => _ end] => destruct c end;
    apply Forall_nil_2.
Qed.

Section Tail.
Variable w : World.
Variable translated : string.
Hypothesis P_write : forall data, P (WriteFile ("/tmp/" +:+ translated) data).
Hypothesis P_upload :
  P (Upload TARGET_BUCKET ("/tmp/" +:+ translated) translated).
Hypothesis P_unlink : P (Unlink ("/tmp/" +:+ translated)).

Lemma write_stage_trace v : Forall P (write_stage w translated v).2.
Proof.
  unfold write_stage. trace_step; [apply Forall_nil_2|].
  match goal with |- context [match ?c with _ => _ end] => destruct c end;
    [|apply Forall_nil_2].
  repeat (trace_step; auto).
  by destruct (fs_writeFile w _ _).
Qed.

Lemma upload_stage_trace v : Forall P (upload_stage w translated v).2.
Proof.
  rewrite upload_stage_run.
  destruct (storage_upload w _ _ _); simpl;
    repeat (apply Forall_cons_2; [auto|]); apply Forall_nil_2.
Qed.

Lemma unlink_stage_trace v : Forall P (unlink_stage w translated v).2.
Proof.
  rewrite unlink_stage_run. simpl.
  repeat (apply Forall_cons_2; [auto|]); apply Forall_nil_2.
Qed.

Lemma chain_tail_trace v : Forall P (chain_tail w translated v).2.
Proof.
  unfold chain_tail.
  trace_step; [|apply report_failure_trace].
  trace_step; [apply write_stage_trace|].
  trace_step; [apply upload_stage_trace|].
  trace_step; [apply unlink_stage_trace|].
  trace_step. auto.
Qed.
End Tail.

Lemma chain_trace w bucket_name file_name v :
  P (Download bucket_name file_name) ->
  (forall b, P (Translate b TARGET_LANGUAGE)) ->
  (forall data,
      P (WriteFile ("/tmp/" +:+ translatedFilename file_name) data)) ->
  P (Upload TARGET_BUCKET ("/tmp/" +:+ translatedFilename file_name)
            (translatedFilename file_name)) ->
  P (Unlink ("/tmp/" +:+ translatedFilename file_name)) ->
  Forall P (chain w bucket_name file_name v).2.
Proof.
  intros P_download P_translate P_write P_upload P_unlink. unfold chain.
  trace_step; [|apply report_failure_trace].
  trace_step.
  { trace_step; [by apply perform_trace_Forall | apply Forall_nil_2]. }
  trace_step.
  { unfold decode_stage.
    match goal with |- context [match ?d with _ => _ end] => destruct d end;
      apply Forall_nil_2. }
  trace_step; [by apply translate_stage_trace|].
  trace_step; [by apply write_stage_trace|].
  trace_step; [by apply upload_stage_trace|].
  trace_step; [by apply unlink_stage_trace|].
  trace_step. auto.
Qed.
End Traces.

(** X11. In every run, for every event and whatever the collaborators
    answer, the only [download()] is called on the handle that the code
    builds with [storage.bucket(object.bucket).file(object.name)], the
    bucket and the name of the event passed on unchanged (what the storage
    library makes of that name is not the code's doing); every translation
    call asks for the target language; and the only file written, uploaded
    or deleted is [/tmp/] plus the translated base name, uploaded to the
    target bucket under that name. *)
Theorem run_addresses_one_object (w : World) (event : Event) :
  Forall (addressed_to (bucket event) (template (name event)))
         (trace (translateSRTFiles w event)).
Proof.
  assert (Forall (addressed_to (bucket event) (template (name event)))
                 (event_log event)) as Hlog.
  { unfold event_log. repeat case_match; repeat constructor. }
  unfold translateSRTFiles. destruct (truthy (name event)); [|exact Hlog].
  pose proof (chain_trace (addressed_to (bucket event) (template (name event)))
                (fun _ => I) (fun _ => I) w (bucket event)
                (template (name event)) None) as Hchain.
  destruct (chain w (bucket event) (template (name event)) None)
    as [[o v] t].
  cbn [trace]. apply Forall_app_2; [exact Hlog|].
  apply Forall_cons_2; [exact I|].
  apply Hchain; simpl; auto.
Qed.

(** ** Runs of the whole function, further *)

Lemma chain_download_Rejected w bucket_name file_name err :
  storage_download w bucket_name file_name = Rejected err ->
  chain w bucket_name file_name None
  = (Rejected err, None,
     [Download bucket_name file_name;
      ConsoleError ("Failed to download, translate or upload file. "
                    +:+ err)]).
Proof.
  intros Hdl. unfold chain.
  change [Download bucket_name file_name; ?e]
    with (([Download bucket_name file_name] ++ []) ++ [e]).
  eapply catch_Rejected; [|reflexivity].
  apply then_Rejected. unfold then_, perform, settle. by rewrite Hdl.
Qed.

(** X12. When the download itself is rejected, the promise of the function
    is rejected with the same error, the error is logged once, and nothing
    is translated, written, uploaded or deleted. *)
Theorem download_failure_rejects (w : World) (event : Event) (err : string) :
  truthy (name event) = true ->
  storage_download w (bucket event) (template (name event)) = Rejected err ->
  translateSRTFiles w event
  = mkRun (Returned (Rejected err)) None
      (start_trace event
       ++ [ConsoleError ("Failed to download, translate or upload file. "
                         +:+ err)]).
Proof.
  intros Hname Hdl.
  by apply translateSRTFiles_run, chain_download_Rejected.
Qed.

Lemma download_failure_rejects_witness :
  result (translateSRTFiles
            (mkWorld (fun _ _ => Rejected "404") (fun _ _ _ => Pending)
                     (fun k => k) (fun _ _ => None) (fun _ _ _ => Pending)
                     (fun _ => None))
            sample_event)
  = Returned (Rejected "404").
Proof.
  rewrite (download_failure_rejects _ sample_event "404"); reflexivity.
Defined.

(** *** A call that never settles *)

Lemma first_rejection_absent {A} time (results : list (outcome A)) :
  (forall j err, results !! j <> Some (Rejected err)) ->
  forall k, first_rejection time k results = None.
Proof.
  induction results as [|r rest IH]; intros Hnone k; simpl; [done|].
  rewrite IH by (intros j err; apply (Hnone (S j) err)).
  destruct r as [a|err|]; try done. by destruct (Hnone 0 err).
Qed.

Lemma all_fulfilled_Pending {A} (results : list (outcome A)) j :
  results !! j = Some Pending -> all_fulfilled results = None.
Proof.
  revert j. induction results as [|r rest IH]; intros j Hj; [done|].
  destruct j as [|j]; simpl in *.
  - by injection Hj as ->.
  - destruct r; try done. by rewrite (IH j Hj).
Qed.

Lemma Promise_all_Pending {A} time (results : list (outcome A)) j :
  results !! j = Some Pending ->
  (forall j' err, results !! j' <> Some (Rejected err)) ->
  Promise_all time results = Pending.
Proof.
  intros Hj Hnone. unfold Promise_all.
  by rewrite first_rejection_absent, (all_fulfilled_Pending results j).
Qed.

Lemma translate_stage_Pending w d batches v :
  d <> EmptyString ->
  planBatches MAX_SEGMENT_SIZE (filter_sentences (processData d)) = Some batches ->
  Promise_all (translate_time w) (answers_of w batches) = Pending ->
  translate_stage w (Some d) v
  = (Pending, Some (processData d), request_trace d batches).
Proof.
  intros Hd Hplan Hall. unfold translate_stage.
  rewrite (truthy_Some d Hd). cbn [template].
  unfold then_, catch_, perform, set_content, settle, reject, dispatch.
  rewrite Hplan. fold (answers_of w batches). rewrite Hall.
  unfold request_trace. cbn [app]. done.
Qed.

Lemma chain_rest_translation_hangs w file_name d batches :
  d <> EmptyString ->
  planBatches MAX_SEGMENT_SIZE (filter_sentences (processData d)) = Some batches ->
  Promise_all (translate_time w) (answers_of w batches) = Pending ->
  chain_rest w file_name (Some d) None
  = (Pending, Some (processData d), request_trace d batches).
Proof.
  intros Hd Hplan Hall. unfold chain_rest, catch_, then_.
  by rewrite (translate_stage_Pending w d batches None Hd Hplan Hall).
Qed.

(** X13. There is no timeout: when one translation call never settles and
    none is rejected, the promise of the function never settles; every
    call has been issued, and nothing is written, uploaded or deleted. *)
Theorem hanging_call_hangs_pipeline (w : World) (event : Event) (d : string)
    (batches : list (list string)) :
  truthy (name event) = true ->
  storage_download w (bucket event) (template (name event))
  = Fulfilled (Some d) ->
  d <> EmptyString ->
  planBatches MAX_SEGMENT_SIZE (filter_sentences (processData d)) = Some batches ->
  (exists k b,
      batches !! k = Some b
      /\ translate_translate w k b TARGET_LANGUAGE = Pending) ->
  (forall k b err,
      batches !! k = Some b ->
      translate_translate w k b TARGET_LANGUAGE <> Rejected err) ->
  translateSRTFiles w event
  = mkRun (Returned Pending) (Some (processData d))
          (start_trace event ++ request_trace d batches).
Proof.
  intros Hname Hdl Hd Hplan (k & b & Hb & Hcall) Hnone.
  apply (run_after_download w event (Some d)); [done | done |].
  apply chain_rest_translation_hangs; [done | done |].
  apply (Promise_all_Pending _ _ k).
  - unfold answers_of. by rewrite list_lookup_imap, Hb; simpl; rewrite Hcall.
  - intros j err. unfold answers_of. rewrite list_lookup_imap.
    destruct (batches !! j) as [b'|] eqn:Hb'; simpl; [|done].
    intros [= Hrej]. by apply (Hnone j b' err).
Qed.

Lemma hanging_call_hangs_pipeline_witness :
  result (translateSRTFiles
            (test_world (Some scenario_A) (fun _ _ => Pending) (Fulfilled tt))
            sample_event)
  = Returned Pending.
Proof.
  rewrite (hanging_call_hangs_pipeline
             (test_world (Some scenario_A) (fun _ _ => Pending) (Fulfilled tt))
             sample_event scenario_A [["Hello"]]).
  - reflexivity.
  - reflexivity.
  - reflexivity.
  - discriminate.
  - vm_compute. reflexivity.
  - exists 0, ["Hello"]. split; reflexivity.
  - intros k b err _. discriminate.
Defined.

(** *** The calls of a run *)

Lemma filter_none {A} (f : A -> bool) (l : list A) :
  Forall (fun a => f a = false) l -> List.filter f l = [].
Proof.
  induction 1 as [|a l Ha _ IH]; simpl; [done|]. by rewrite Ha.
Qed.

Lemma filter_translate_request_trace d batches :
  List.filter is_translate_call (request_trace d batches)
  = map (fun b => Translate b TARGET_LANGUAGE) batches.
Proof.
  unfold request_trace. cbn [app List.filter is_translate_call].
  rewrite List.filter_app. cbn [List.filter is_translate_call].
  rewrite app_nil_r.
  induction batches as [|b batches IH]; simpl; [done|]. by rewrite IH.
Qed.

Lemma filter_translate_start_trace event :
  List.filter is_translate_call (start_trace event) = [].
Proof.
  apply filter_none. unfold start_trace, event_log.
  repeat case_match; each_action.
Qed.

Lemma filter_translate_chain_tail w translated v :
  List.filter is_translate_call (chain_tail w translated v).2 = [].
Proof.
  apply filter_none.
  by apply (chain_tail_trace (fun a => is_translate_call a = false)).
Qed.

(** X14. Whatever the backend answers, the translation calls of a run are
    exactly the batches that the loop plans for the filtered sentences with
    [MAX_SEGMENT_SIZE], in order; the batches concatenate to the filtered
    sentences, so every line that needs translation is sent once, and no
    index, timestamp or blank line is sent. *)
Theorem every_text_line_is_sent_once (w : World) (event : Event) (d : string) :
  truthy (name event) = true ->
  storage_download w (bucket event) (template (name event))
  = Fulfilled (Some d) ->
  d <> EmptyString ->
  exists batches,
    planBatches MAX_SEGMENT_SIZE (filter_sentences (processData d))
    = Some batches
    /\ concat batches = filter_sentences (processData d)
    /\ List.filter is_translate_call (trace (translateSRTFiles w event))
       = map (fun b => Translate b TARGET_LANGUAGE) batches.
Proof.
  intros Hname Hdl Hd.
  destruct (planBatches_spec (filter_sentences (processData d))
              MAX_SEGMENT_SIZE) as (batches & Hplan & Hcat & _);
    [unfold MAX_SEGMENT_SIZE; lia|].
  exists batches. split; [done|]. split; [done|].
  destruct (Promise_all (translate_time w) (answers_of w batches))
    as [results|cause|] eqn:Hall.
  - pose proof (filter_translate_chain_tail w
                  (translatedFilename (template (name event)))
                  (Some (merge_translations (processData d)
                                            (concat_segments results))))
      as Htail.
    destruct (chain_tail w _ _) as [[o v] t] eqn:Hrun. simpl in Htail.
    rewrite (run_after_download w event (Some d) _ _ _ Hname Hdl
               (chain_rest_translated w _ d batches results _ _ _
                  Hd Hplan Hall Hrun)).
    cbn [trace]. rewrite !List.filter_app.
    rewrite filter_translate_start_trace, filter_translate_request_trace, Htail.
    simpl. by rewrite !app_nil_r.
  - rewrite (run_after_download w event (Some d) _ _ _ Hname Hdl
               (chain_rest_translation_fails w _ d batches cause
                  Hd Hplan Hall)).
    cbn [trace]. rewrite !List.filter_app.
    rewrite filter_translate_start_trace, filter_translate_request_trace.
    simpl. by rewrite ?app_nil_r.
  - rewrite (run_after_download w event (Some d) _ _ _ Hname Hdl
               (chain_rest_translation_hangs w _ d batches Hd Hplan Hall)).
    cbn [trace]. rewrite !List.filter_app.
    by rewrite filter_translate_start_trace, filter_translate_request_trace.
Qed.

Lemma every_text_line_is_sent_once_witness :
  List.filter is_translate_call
    (trace (translateSRTFiles
              (test_world (Some long_text) quota_backend (Fulfilled tt))
              sample_event))
  = [Translate (repeat "Hello" 128) "nl"; Translate ["Hello"] "nl"].
Proof.
  destruct (every_text_line_is_sent_once
              (test_world (Some long_text) quota_backend (Fulfilled tt))
              sample_event long_text)
    as (batches & Hplan & _ & Hcalls);
    [reflexivity | reflexivity | discriminate |].
  rewrite Hcalls.
  assert (planBatches MAX_SEGMENT_SIZE
            (filter_sentences (processData long_text))
          = Some [repeat "Hello" 128; ["Hello"]]) as Hrun
    by (vm_compute; reflexivity).
  rewrite Hrun in Hplan. by injection Hplan as <-.
Defined.

(** *** What is written *)

Lemma first_rejection_map_Fulfilled {A} time (values : list A) : forall k,
  first_rejection time k (map Fulfilled values) = None.
Proof.
  induction values as [|a values IH]; intros k; simpl; [done|]. by rewrite IH.
Qed.

Lemma Promise_all_map_Fulfilled {A} time (values : list A) :
  Promise_all time (map Fulfilled values) = Fulfilled values.
Proof.
  unfold Promise_all. rewrite first_rejection_map_Fulfilled.
  assert (all_fulfilled (map Fulfilled values) = Some values) as ->; [|done].
  induction values as [|a values IH]; simpl; [done|]. by rewrite IH.
Qed.

Lemma answers_of_linewise w f batches :
  (forall k b, translate_translate w k b TARGET_LANGUAGE = linewise_backend f b) ->
  answers_of w batches
  = map Fulfilled (map (map (fun s => JStr (f s))) batches).
Proof.
  intros Hw. unfold answers_of.
  rewrite (imap_ext _ (fun _ b => Fulfilled (map (fun s => JStr (f s)) b)))
    by (intros k b _; apply Hw).
  rewrite map_map. generalize 0.
  induction batches as [|b batches IH]; intros k; simpl; [done|].
  f_equal. apply (IH (S k)).
Qed.

Lemma chain_tail_writes w translated content :
  exists o v t,
    chain_tail w translated (Some content)
    = (o, v, write_trace translated content ++ t).
Proof.
  destruct (fs_writeFile w ("/tmp/" +:+ translated) (output_text content))
    as [err|] eqn:Hwrite.
  - eexists _, _, _. by apply chain_tail_write_fails.
  - unfold chain_tail.
    match goal with
    | |- context [catch_ (then_ ?p ?f) ?h] =>
        destruct (catch_ (f tt) h (Some content)) as [[o v] t] eqn:Hrest
    end.
    exists o, v, t. eapply catch_then_prefix; [|exact Hrest].
    by rewrite write_stage_run, Hwrite.
Qed.

(** Once the translations are in, the merged text is handed to
    [fs.writeFile], whatever happens afterwards. *)
Lemma run_writes_merged w event d batches results :
  truthy (name event) = true ->
  storage_download w (bucket event) (template (name event))
  = Fulfilled (Some d) ->
  d <> EmptyString ->
  planBatches MAX_SEGMENT_SIZE (filter_sentences (processData d)) = Some batches ->
  Promise_all (translate_time w) (answers_of w batches) = Fulfilled results ->
  In (WriteFile ("/tmp/" +:+ translatedFilename (template (name event)))
                (output_text (merge_translations (processData d)
                                                 (concat_segments results))))
     (trace (translateSRTFiles w event)).
Proof.
  intros Hname Hdl Hd Hplan Hall.
  destruct (chain_tail_writes w (translatedFilename (template (name event)))
              (merge_translations (processData d) (concat_segments results)))
    as (o & v & t & Htail).
  rewrite (run_after_download w event (Some d) _ _ _ Hname Hdl
             (chain_rest_translated w _ d batches results _ _ _
                Hd Hplan Hall Htail)).
  cbn [trace]. apply in_or_app. right. apply in_or_app. right.
  apply in_or_app. left. simpl. tauto.
Qed.

Lemma linewise_text f d batches :
  concat batches = filter_sentences (processData d) ->
  output_text (merge_translations (processData d)
                 (concat_segments
                    (map (map (fun s => JStr (f s))) batches)))
  = String.concat NL
      (map (fun line => if needs_translation line then f line else line)
           (split_lines d)).
Proof.
  intros Hcat. unfold output_text, js_join.
  rewrite concat_segments_concat, <- concat_map, Hcat.
  rewrite merge_translations_output. unfold filter_sentences.
  rewrite processData_sentences, reconstitute_linewise.
  by rewrite map_map.
Qed.

(** X15. With a backend that translates each line by a function [f], the
    text handed to [fs.writeFile] is the downloaded text with [f] applied
    to each line that needs translation, in whatever order the calls
    settle; when the write, the upload and the deletion go well, the
    promise is fulfilled. *)
Theorem linewise_backend_translates_file (w : World) (event : Event)
    (d : string) (f : string -> string) :
  truthy (name event) = true ->
  storage_download w (bucket event) (template (name event))
  = Fulfilled (Some d) ->
  d <> EmptyString ->
  (forall k b, translate_translate w k b TARGET_LANGUAGE = linewise_backend f b) ->
  let local := "/tmp/" +:+ translatedFilename (template (name event)) in
  let text :=
    String.concat NL
      (map (fun line => if needs_translation line then f line else line)
           (split_lines d)) in
  In (WriteFile local text) (trace (translateSRTFiles w event))
  /\ (fs_writeFile w local text = None ->
      storage_upload w TARGET_BUCKET local
                     (translatedFilename (template (name event))) <> Pending ->
      fs_unlink w local = None ->
      result (translateSRTFiles w event) = Returned (Fulfilled tt)).
Proof.
  intros Hname Hdl Hd Hw local text.
  destruct (planBatches_spec (filter_sentences (processData d))
              MAX_SEGMENT_SIZE) as (batches & Hplan & Hcat & _);
    [unfold MAX_SEGMENT_SIZE; lia|].
  assert (Promise_all (translate_time w) (answers_of w batches)
          = Fulfilled (map (map (fun s => JStr (f s))) batches)) as Hall.
  { rewrite (answers_of_linewise w f batches Hw).
    apply Promise_all_map_Fulfilled. }
  pose proof (linewise_text f d batches Hcat) as Htext. fold text in Htext.
  split.
  - rewrite <- Htext. by eapply run_writes_merged.
  - intros Hwrite Hup Hunlink. rewrite <- Htext in Hwrite.
    rewrite (run_after_download w event (Some d) _ _ _ Hname Hdl
               (chain_rest_translated w _ d batches _ _ _ _ Hd Hplan Hall
                  (chain_tail_completes w _ _ Hwrite Hup Hunlink))).
    reflexivity.
Qed.

Lemma linewise_backend_translates_file_witness :
  In (WriteFile "/tmp/sample-nl.txt"
        (String.concat NL
           ["1"; "00:00:01,000 --> 00:00:02,000"; "Hallo"; ""; ""]))
     (trace (translateSRTFiles
               (test_world (Some scenario_A) Hallo_backend (Fulfilled tt))
               sample_event)).
Proof.
  apply (linewise_backend_translates_file
           (test_world (Some scenario_A) Hallo_backend (Fulfilled tt))
           sample_event scenario_A (fun _ => "Hallo"));
    [reflexivity | reflexivity | discriminate | reflexivity].
Defined.

(** X16. With a backend that returns every line as it is, the text handed
    to [fs.writeFile] is the downloaded text, character for character. *)
Theorem echo_backend_writes_input (w : World) (event : Event) (d : string) :
  truthy (name event) = true ->
  storage_download w (bucket event) (template (name event))
  = Fulfilled (Some d) ->
  d <> EmptyString ->
  (forall k b,
      translate_translate w k b TARGET_LANGUAGE = Fulfilled (map JStr b)) ->
  In (WriteFile ("/tmp/" +:+ translatedFilename (template (name event))) d)
     (trace (translateSRTFiles w event)).
Proof.
  intros Hname Hdl Hd Hw.
  destruct (planBatches_spec (filter_sentences (processData d))
              MAX_SEGMENT_SIZE) as (batches & Hplan & Hcat & _);
    [unfold MAX_SEGMENT_SIZE; lia|].
  assert (Promise_all (translate_time w) (answers_of w batches)
          = Fulfilled (map (map (fun s => JStr s)) batches)) as Hall.
  { rewrite (answers_of_linewise w (fun x => x) batches Hw).
    apply Promise_all_map_Fulfilled. }
  pose proof (linewise_text (fun x => x) d batches Hcat) as Htext.
  rewrite (map_ext _ (fun line => line)) in Htext
    by (intros line; by destruct (needs_translation line)).
  rewrite map_id, join_split_lines in Htext. cbv beta in Htext.
  pose proof (run_writes_merged w event d batches _ Hname Hdl Hd Hplan Hall)
    as Hin.
  by rewrite Htext in Hin.
Qed.

Lemma echo_backend_writes_input_witness :
  In (WriteFile "/tmp/sample-nl.txt" scenario_A)
     (trace (translateSRTFiles
               (test_world (Some scenario_A)
                           (fun _ b => Fulfilled (map JStr b)) (Fulfilled tt))
               sample_event)).
Proof.
  apply (echo_backend_writes_input
           (test_world (Some scenario_A)
                       (fun _ b => Fulfilled (map JStr b)) (Fulfilled tt))
           sample_event scenario_A);
    [reflexivity | reflexivity | discriminate | reflexivity].
Defined.

(** X17. A text without a line that needs translation issues no translation
    call at all, whatever the backend would answer, and the text handed to
    [fs.writeFile] is the downloaded text. *)
Theorem nothing_to_translate (w : World) (event : Event) (d : string) :
  truthy (name event) = true ->
  storage_download w (bucket event) (template (name event))
  = Fulfilled (Some d) ->
  d <> EmptyString ->
  filter_sentences (processData d) = [] ->
  List.filter is_translate_call (trace (translateSRTFiles w event)) = []
  /\ In (WriteFile ("/tmp/" +:+ translatedFilename (template (name event))) d)
        (trace (translateSRTFiles w event)).
Proof.
  intros Hname Hdl Hd Hnone.
  assert (planBatches MAX_SEGMENT_SIZE (filter_sentences (processData d))
          = Some []) as Hplan by (by rewrite Hnone).
  assert (Promise_all (translate_time w) (answers_of w []) = Fulfilled [])
    as Hall by reflexivity.
  assert (output_text (merge_translations (processData d) (concat_segments []))
          = d) as Htext.
  { pose proof (linewise_text (fun x => x) d [] (eq_sym Hnone)) as Htext.
    rewrite (map_ext _ (fun line => line)) in Htext
      by (intros line; by destruct (needs_translation line)).
    by rewrite map_id, join_split_lines in Htext. }
  split.
  - pose proof (filter_translate_chain_tail w
                  (translatedFilename (template (name event)))
                  (Some (merge_translations (processData d)
                                            (concat_segments []))))
      as Htail.
    destruct (chain_tail w _ _) as [[o v] t] eqn:Hrun. simpl in Htail.
    rewrite (run_after_download w event (Some d) _ _ _ Hname Hdl
               (chain_rest_translated w _ d [] [] _ _ _
                  Hd Hplan Hall Hrun)).
    cbn [trace]. rewrite !List.filter_app.
    by rewrite filter_translate_start_trace, filter_translate_request_trace,
      Htail.
  - pose proof (run_writes_merged w event d [] [] Hname Hdl Hd Hplan Hall)
      as Hin.
    by rewrite Htext in Hin.
Qed.

Lemma nothing_to_translate_witness :
  List.filter is_translate_call
    (trace (translateSRTFiles
              (test_world (Some ("1" +:+ NL +:+ "2")) quota_backend
                          (Fulfilled tt))
              sample_event))
  = [].
Proof.
  apply (nothing_to_translate
           (test_world (Some ("1" +:+ NL +:+ "2")) quota_backend
                       (Fulfilled tt))
           sample_event ("1" +:+ NL +:+ "2"));
    [reflexivity | reflexivity | discriminate | reflexivity].
Defined.

(** ** The output filename, further *)


Lemma split_on_one_segment sep s :
  Forall (fun c => c <> sep) (list_ascii_of_string s) -> split_on sep s = [s].
Proof.
  induction s as [|c s IH]; simpl; [done|].
  intros Hfree. inversion Hfree as [|? ? Hc Hs]; subst.
  rewrite bool_decide_eq_false_2 by done. by rewrite IH.
Qed.

Lemma split_on_separator sep a : forall b,
  split_on sep (a +:+ String sep b) = split_on sep a ++ split_on sep b.
Proof.
  induction a as [|c a IH]; intros b; simpl.
  - by rewrite bool_decide_eq_true_2.
  - rewrite IH. case_bool_decide; [done|].
    pose proof (split_on_nonempty sep a) as Hne.
    by destruct (split_on sep a).
Qed.







Lemma path_base_of_folder dir base :
  base <> EmptyString ->
  Forall (fun c => c <> "/"%char) (list_ascii_of_string base) ->
  path_base (dir +:+ String "/" base) = base.
Proof.
  intros Hne Hfree. unfold path_base.
  rewrite split_on_separator, (split_on_one_segment _ base Hfree).
  rewrite List.filter_app. simpl.
  rewrite bool_decide_eq_false_2 by done. simpl.
  apply last_last.
Qed.

(** X19. The folder of the object is dropped: an object in any folder gets
    the output name of its base name alone, so objects with the same base
    name in different folders get the same output name. *)
Theorem folder_is_dropped (dir base : string) :
  base <> EmptyString ->
  Forall (fun c => c <> "/"%char) (list_ascii_of_string base) ->
  translatedFilename (dir +:+ String "/" base) = translatedFilename base.
Proof.
  intros Hne Hfree. unfold translatedFilename.
  rewrite (path_base_of_folder dir base Hne Hfree).
  unfold path_base. rewrite (split_on_one_segment _ base Hfree). simpl.
  by rewrite bool_decide_eq_false_2.
Qed.

Lemma folder_is_dropped_witness :
  translatedFilename "films/2017/sample-en.txt" = "sample-nl.txt".
Proof.
  transitivity (translatedFilename "sample-en.txt"); [|reflexivity].
  apply (folder_is_dropped "films/2017" "sample-en.txt").
  - discriminate.
  - simpl. repeat (apply Forall_cons_2; [discriminate|]). apply Forall_nil_2.
Defined.
